(** * DocCollection: the document registry of automerge-repo

    A shallow embedding of [packages/automerge-repo/src/DocCollection.ts].

    The registry is a JavaScript object holding a handle cache (a
    [Record<DocumentId, DocHandle>]) and a share policy.  Its methods mutate
    the cache, allocate [DocHandle] objects, emit events and schedule timers.
    We make all of that explicit: a [DocCollection] value carries the fields
    of the object together with the part of the JavaScript runtime the
    methods act upon (the heap of handle objects, the log of emitted events,
    the timer queue and the entropy consumed so far), and the methods are
    written in a state-and-exception monad over it.

    [DocHandle.ts] and [DocUrl.ts] are not part of the sources at hand.  The
    handle is modelled from the specification (section 4.1); the url codec is
    an interface ([DocUrl]) of which section [SpecCodec] gives the instance
    described by the specification (section 6). *)

From stdpp Require Import gmap strings list fin_maps.
From Stdlib Require Import Ascii.

(** ** Values *)

(** [types.ts]: both are branded strings. *)
Abbreviation DocumentId := string (only parsing).
Abbreviation AutomergeUrl := string (only parsing).
Abbreviation PeerId := string (only parsing).

(** The identity of a [DocHandle] object: its address in the heap.  Two
    handles are the same instance iff their addresses are equal. *)
Abbreviation href := nat (only parsing).

(** The identity of a listener function passed to [on]. *)
Abbreviation ListenerId := nat (only parsing).

(** What a [throw] carries. *)
Inductive Exn : Type :=
| Error (message : string)
| TypeError (message : string).

(** The outcome of evaluating a JavaScript expression. *)
Inductive Completion (A : Type) : Type :=
| Normal (value : A)
| Throw (exn : Exn).
Arguments Normal {A} value.
Arguments Throw {A} exn.

(** A settled promise, as [async] functions without [await] return. *)
Inductive Promise (A : Type) : Type :=
| Fulfilled (value : A)
| Rejected (reason : Exn).
Arguments Fulfilled {A} value.
Arguments Rejected {A} reason.

(** [Repo.ts]: [(peerId, documentId?) => Promise<boolean>]. *)
Definition SharePolicy : Type := PeerId -> option DocumentId -> Promise bool.

(** ** Document handles *)

(** Modelled from the spec: the lifecycle states of a handle (section 4.1);
    [DocHandle.ts] is missing. *)
Inductive HandleState : Type :=
| Idle | Loading | Requesting | Ready | Unavailable | Deleted.

#[global] Instance HandleState_eq_dec : EqDecision HandleState.
Proof. solve_decision. Defined.

(** Modelled from the spec: the notifications of a handle (section 6,
    application-facing surface); [DocHandle.ts] is missing. *)
Inductive HandleEvent : Type :=
| EvChange | EvDelete | EvUnavailable | EvEphemeralMessage.

#[global] Instance HandleEvent_eq_dec : EqDecision HandleEvent.
Proof. solve_decision. Defined.

(** The document value is opaque to the registry; the only value it ever
    builds is the empty object [{}]. *)
Definition Doc : Type := list (string * string).
Definition empty_doc : Doc := [].

(** Modelled from the spec: a handle object (section 3), with the attributes
    the registry reads or causes to change; [DocHandle.ts] is missing. *)
Record DocHandle : Type := mkDocHandle {
  documentId : DocumentId;
  isNew : bool;
  state : HandleState;
  doc : option Doc;
  handle_listeners : list (HandleEvent * ListenerId)
}.

Definition with_state (s : HandleState) (d : option Doc) (h : DocHandle) : DocHandle :=
  {| documentId := documentId h;
     isNew := isNew h;
     state := s;
     doc := d;
     handle_listeners := handle_listeners h |}.

Definition add_listener (ev : HandleEvent) (l : ListenerId) (h : DocHandle) : DocHandle :=
  {| documentId := documentId h;
     isNew := isNew h;
     state := state h;
     doc := doc h;
     handle_listeners := handle_listeners h ++ [(ev, l)] |}.

(** Modelled from the spec: [new DocHandle(documentId, { isNew })].  With
    [isNew = true] the handle goes [idle -> ready] at once with an empty
    value; with [isNew = false] it goes [idle -> loading]. *)
Definition construct (documentId : DocumentId) (isNew : bool) : DocHandle :=
  {| documentId := documentId;
     isNew := isNew;
     state := if isNew then Ready else Loading;
     doc := if isNew then Some empty_doc else None;
     handle_listeners := [] |}.

(** Modelled from the spec: the transitions of section 4.1 that the storage
    bridge and the synchronization router drive. *)
Definition handle_step (s s' : HandleState) : bool :=
  match s, s' with
  | Idle, Ready | Idle, Loading => true
  | Loading, Ready | Loading, Requesting | Loading, Unavailable => true
  | Requesting, Ready | Requesting, Unavailable => true
  | Unavailable, Ready => true
  | Ready, Ready => true
  | Deleted, _ => false
  | _, Deleted => true
  | _, _ => false
  end.

(** ** The registry and the runtime around it *)

(** What has been emitted, on the registry or on a handle. *)
Inductive Emission : Type :=
| EmitDocument (handle : href)
    (* this.emit("document", { handle }) *)
| EmitDeleteDocument (documentId : DocumentId)
    (* this.emit("delete-document", { documentId }) *)
| EmitOnHandle (target : href) (ev : HandleEvent) (handle : href).
    (* target.emit(ev, { handle }) *)

(** The closures handed to [setTimeout]. *)
Inductive Task : Type :=
| ReannounceUnavailable (documentId : DocumentId).

(** The cache is read as a finite map: identifiers are taken not to name a
    property the object literal inherits ([constructor], [toString], ...);
    see [inherited] below. *)
Record DocCollection : Type := mkDocCollection {
  (* fields of the object *)
  handleCache : gmap string nat;
  sharePolicy : SharePolicy;
  (* the runtime *)
  heap : list DocHandle;
  emitted : list Emission;
  delivered : list (ListenerId * Emission);
  timers : list Task;
  entropy : nat
}.

Definition set_handleCache (c : gmap string nat) (r : DocCollection) : DocCollection :=
  mkDocCollection c (sharePolicy r) (heap r) (emitted r) (delivered r) (timers r) (entropy r).
Definition set_sharePolicy (p : SharePolicy) (r : DocCollection) : DocCollection :=
  mkDocCollection (handleCache r) p (heap r) (emitted r) (delivered r) (timers r) (entropy r).
Definition set_heap (hp : list DocHandle) (r : DocCollection) : DocCollection :=
  mkDocCollection (handleCache r) (sharePolicy r) hp (emitted r) (delivered r) (timers r) (entropy r).
Definition set_emitted (es : list Emission) (ds : list (ListenerId * Emission))
    (r : DocCollection) : DocCollection :=
  mkDocCollection (handleCache r) (sharePolicy r) (heap r) es ds (timers r) (entropy r).
Definition set_timers (ts : list Task) (r : DocCollection) : DocCollection :=
  mkDocCollection (handleCache r) (sharePolicy r) (heap r) (emitted r) (delivered r) ts (entropy r).
Definition set_entropy (n : nat) (r : DocCollection) : DocCollection :=
  mkDocCollection (handleCache r) (sharePolicy r) (heap r) (emitted r) (delivered r) (timers r) n.

(** [new DocCollection()]: an empty cache and the generous share policy,
    [async () => true]. *)
Definition default_sharePolicy : SharePolicy := fun _ _ => Fulfilled true.

Definition new_DocCollection : DocCollection :=
  {| handleCache := ∅;
     sharePolicy := default_sharePolicy;
     heap := [];
     emitted := [];
     delivered := [];
     timers := [];
     entropy := 0 |}.

(** ** The monad of methods *)

Definition M (A : Type) : Type := DocCollection -> Completion A * DocCollection.

Definition ret {A} (a : A) : M A := fun r => (Normal a, r).
Definition throw {A} (e : Exn) : M A := fun r => (Throw e, r).
Definition bind {A B} (m : M A) (k : A -> M B) : M B :=
  fun r => match m r with
           | (Normal a, r') => k a r'
           | (Throw e, r') => (Throw e, r')
           end.
Definition gets {A} (f : DocCollection -> A) : M A := fun r => (Normal (f r), r).
Definition modify (f : DocCollection -> DocCollection) : M unit := fun r => (Normal tt, f r).
Definition lift {A} (c : Completion A) : M A := fun r => (c, r).

Notation "'let*' x ':=' m 'in' k" := (bind m (fun x => k))
  (at level 10, x name, m at level 100, k at level 200, only parsing).
Notation "m ';;;' k" := (bind m (fun _ => k))
  (at level 100, k at level 200, right associativity, only parsing).

(** ** Event emitters (eventemitter3) *)

(** The listeners of a handle registered for an event, in registration
    order. *)
Definition receivers (ev : HandleEvent) (h : DocHandle) : list ListenerId :=
  (filter (fun p => p.1 = ev) (handle_listeners h)).*2.

(** [this.emit(...)]: the registry itself has no listener inside this class;
    the listeners the application attaches are taken to return normally. *)
Definition emit (e : Emission) : M unit :=
  modify (fun r => set_emitted (emitted r ++ [e]) (delivered r) r).

(** [target.emit(ev, { handle })]: every listener registered at that moment
    is called once. *)
Definition handle_emit (target : href) (ev : HandleEvent) (handle : href) : M unit :=
  fun r =>
    match heap r !! target with
    | None => (Throw (TypeError "Cannot read properties of undefined (reading 'emit')"), r)
    | Some h =>
        let e := EmitOnHandle target ev handle in
        (Normal tt,
         set_emitted (emitted r ++ [e])
                     (delivered r ++ ((fun l => (l, e)) <$> receivers ev h)) r)
    end.

(** [handle.on(ev, listener)], called by the application. *)
Definition on (target : href) (ev : HandleEvent) (l : ListenerId) : M unit :=
  modify (fun r => set_heap (alter (add_listener ev l) target (heap r)) r).

(** ** Handle methods *)

(** [new DocHandle(documentId, { isNew })]: allocates the object. *)
Definition new_DocHandle (documentId : DocumentId) (isNew : bool) : M href :=
  fun r => (Normal (length (heap r)),
            set_heap (heap r ++ [construct documentId isNew]) r).

(** Modelled from the spec: [isUnavailable()], a snapshot read of the state. *)
Definition isUnavailable (h : href) : M bool :=
  fun r =>
    match heap r !! h with
    | None => (Throw (TypeError "Cannot read properties of undefined (reading 'isUnavailable')"), r)
    | Some d => (Normal (bool_decide (state d = Unavailable)), r)
    end.

(** Modelled from the spec: [handle.delete()] moves the handle to [deleted],
    releases the in-memory value and emits a deletion notification. *)
Definition DocHandle_delete (h : href) : M unit :=
  modify (fun r => set_heap (alter (with_state Deleted None) h (heap r)) r) ;;;
  handle_emit h EvDelete h.

(** Modelled from the spec: a transition of section 4.1 driven from outside
    the registry (storage load finished, a peer answered, the deadline
    elapsed, ...), leaving the value [d] in the handle.  A transition the
    state machine does not have is ignored. *)
Definition transition (h : href) (s' : HandleState) (d : option Doc) : M unit :=
  modify (fun r =>
    set_heap (alter (fun x => if handle_step (state x) s' then with_state s' d x else x)
                    h (heap r)) r).

(** ** The url codec *)

(** The functions [DocCollection.ts] imports from [DocUrl.ts].
    [parseAutomergeUrl] throws on a malformed url, and
    [generateAutomergeUrl] draws a random identifier: its argument is the
    number of draws made so far. *)
Class DocUrl : Type := {
  isValidAutomergeUrl : string -> bool;
  parseAutomergeUrl : AutomergeUrl -> Completion DocumentId;
  generateAutomergeUrl : nat -> AutomergeUrl
}.

(** ** DocCollection.ts *)

Section DocCollection.
Context {codec : DocUrl}.

(** [Uuid.v4] consumes entropy. *)
Definition generate : M AutomergeUrl :=
  fun r => (Normal (generateAutomergeUrl (entropy r)), set_entropy (S (entropy r)) r).

(** [setTimeout(callback)] *)
Definition setTimeout (t : Task) : M unit :=
  modify (fun r => set_timers (timers r ++ [t]) r).

(** [!documentId] for a string. *)
Definition falsy (s : string) : bool := bool_decide (s = "").

(** Returns an existing handle if we have it; creates one otherwise. *)
Definition getHandle (documentId : DocumentId) (isNew : bool) : M href :=
  let* cached := gets (fun r => handleCache r !! documentId) in
  match cached with
  | Some handle => ret handle
  | None =>
      if falsy documentId
      then throw (Error ("Invalid documentId " +:+ documentId))
      else
        let* handle := new_DocHandle documentId isNew in
        modify (fun r => set_handleCache (<[documentId := handle]> (handleCache r)) r) ;;;
        ret handle
  end.

(** Returns all the handles we have cached. *)
Definition handles : M (gmap string nat) := gets handleCache.

(** Creates a new document and returns a handle to it. *)
Definition create : M href :=
  let* url := generate in
  let* documentId := lift (parseAutomergeUrl url) in
  let* handle := getHandle documentId true in
  emit (EmitDocument handle) ;;;
  ret handle.

(** Retrieves a document by id. *)
Definition find (automergeUrl : AutomergeUrl) : M href :=
  if negb (isValidAutomergeUrl automergeUrl)
  then throw (Error ("Invalid AutomergeUrl: '" +:+ automergeUrl +:+ "'"))
  else
    let* documentId := lift (parseAutomergeUrl automergeUrl) in
    let* cached := gets (fun r => handleCache r !! documentId) in
    match cached with
    | Some handle =>
        let* unavailable := isUnavailable handle in
        (if unavailable
         then setTimeout (ReannounceUnavailable documentId)
         else ret tt) ;;;
        ret handle
    | None =>
        let* handle := getHandle documentId false in
        emit (EmitDocument handle) ;;;
        ret handle
    end.

(** Deletes a document, given its id or its url. *)
Definition delete (id : string) : M unit :=
  let* id := (if isValidAutomergeUrl id
              then lift (parseAutomergeUrl id)
              else ret id) in
  let* handle := getHandle id false in
  DocHandle_delete handle ;;;
  modify (fun r => set_handleCache (base.delete id (handleCache r)) r) ;;;
  emit (EmitDeleteDocument id).

(** The callback [find] hands to [setTimeout]; it reads the cache again when
    it runs. *)
Definition run_task (t : Task) : M unit :=
  match t with
  | ReannounceUnavailable documentId =>
      let* cached := gets (fun r => handleCache r !! documentId) in
      match cached with
      | Some handle => handle_emit handle EvUnavailable handle
      | None => throw (TypeError "Cannot read properties of undefined (reading 'emit')")
      end
  end.

(** One turn of the event loop: the oldest pending timer fires. *)
Definition tick : M unit :=
  fun r =>
    match timers r with
    | [] => (Normal tt, r)
    | t :: ts => run_task t (set_timers ts r)
    end.

(** *** Histories *)

(** What can happen to a registry: the application calls one of its methods
    or subscribes to a handle, the storage bridge or the synchronization
    router moves a handle along its state machine, or a timer fires. *)
Inductive Call : Type :=
| CallCreate
| CallFind (automergeUrl : AutomergeUrl)
| CallDelete (id : string)
| CallOn (target : href) (ev : HandleEvent) (l : ListenerId)
| CallTransition (target : href) (s' : HandleState) (d : option Doc)
| CallTick.

(** The state a call leaves behind; an exception is the caller's to catch and
    does not undo what the method did before throwing. *)
Definition exec (c : Call) (r : DocCollection) : DocCollection :=
  match c with
  | CallCreate => (create r).2
  | CallFind automergeUrl => (find automergeUrl r).2
  | CallDelete id => (delete id r).2
  | CallOn target ev l => (on target ev l r).2
  | CallTransition target s' d => (transition target s' d r).2
  | CallTick => (tick r).2
  end.

Definition run (cs : list Call) (r : DocCollection) : DocCollection :=
  foldl (fun r c => exec c r) r cs.

End DocCollection.

(** *** The registry invariant *)

(** Every cached handle is an object of the heap that carries the identifier
    it is cached under, and every handle object that is not [deleted] is the
    one cached for its identifier. *)
Record registry_inv (r : DocCollection) : Prop := {
  cache_sound : forall id h,
    handleCache r !! id = Some h ->
    exists d, heap r !! h = Some d /\ documentId d = id;
  live_cached : forall h d,
    heap r !! h = Some d ->
    state d <> Deleted ->
    handleCache r !! documentId d = Some h
}.

(** The handle objects ever constructed for an identifier. *)
Definition handles_of (id : DocumentId) (r : DocCollection) : list href :=
  filter (fun h => documentId <$> heap r !! h = Some id) (seq 0 (length (heap r))).

(** ** The codec of the specification *)

(** Modelled from the spec: the error [find] and [parse] report for a url
    that fails validation (section 7); the message is the one [find] builds. *)
Definition InvalidUrlError (url : string) : Exn :=
  Error ("Invalid AutomergeUrl: '" +:+ url +:+ "'").

(** Modelled from the spec: "base58 or equivalent encoding" (section 6), a
    text encoding of binary strings; it is [lossless] when what it encodes
    can be decoded again. *)
Record Encoding : Type := {
  encode : string -> string;
  decode : string -> option string
}.

Definition lossless (e : Encoding) : Prop :=
  forall s, decode e (encode e s) = Some s.

(** Modelled from the spec: the checksum appended to the identifier
    (section 6), a function to strings of a fixed width. *)
Record Checksum : Type := {
  digest : string -> string;
  width : nat
}.

Definition fixed_width (c : Checksum) : Prop :=
  forall s, String.length (digest c s) = width c.

Fixpoint strip_prefix (p s : string) : option string :=
  match p, s with
  | EmptyString, _ => Some s
  | String a p', String b s' => if decide (a = b) then strip_prefix p' s' else None
  | String _ _, EmptyString => None
  end.

Fixpoint split_at (n : nat) (s : string) : string * string :=
  match n, s with
  | S n', String a s' => let (l, r) := split_at n' s' in (String a l, r)
  | _, _ => (EmptyString, s)
  end.

Section SpecCodec.
Variable enc : Encoding.
Variable sum : Checksum.
(** The random bytes of the [n]-th draw. *)
Variable uuid : nat -> string.

Definition urlPrefix : string := "automerge:".

(** Modelled from the spec: [stringify], the scheme prefix followed by the
    encoding of the identifier and its checksum; [DocUrl.ts] is missing. *)
Definition stringifyAutomergeUrl (documentId : DocumentId) : AutomergeUrl :=
  urlPrefix +:+ encode enc (documentId +:+ digest sum documentId).

(** Modelled from the spec: [parse] fails on a malformed prefix or a bad
    checksum; [DocUrl.ts] is missing. *)
Definition spec_parse (url : AutomergeUrl) : Completion DocumentId :=
  match strip_prefix urlPrefix url with
  | None => Throw (InvalidUrlError url)
  | Some body =>
      match decode enc body with
      | None => Throw (InvalidUrlError url)
      | Some payload =>
          let (id, check) := split_at (String.length payload - width sum) payload in
          if bool_decide (digest sum id = check)
          then Normal id
          else Throw (InvalidUrlError url)
      end
  end.

(** Modelled from the spec: [isValid], "a pure boolean predicate usable as a
    guard before parse"; [DocUrl.ts] is missing. *)
Definition spec_isValid (url : string) : bool :=
  match spec_parse url with
  | Normal _ => true
  | Throw _ => false
  end.

(** Modelled from the spec: a fresh identifier is a draw of random bytes,
    handed out in its string form; [DocUrl.ts] is missing. *)
Definition spec_generate (n : nat) : AutomergeUrl :=
  stringifyAutomergeUrl (uuid n).

#[export] Instance SpecDocUrl : DocUrl := {|
  isValidAutomergeUrl := spec_isValid;
  parseAutomergeUrl := spec_parse;
  generateAutomergeUrl := spec_generate
|}.

End SpecCodec.

(** *** An instance: hexadecimal text and a one-byte sum *)

(** The digit for a value below sixteen, in lower case. *)
Definition hex_digit (n : N) : ascii :=
  ascii_of_N (if (n <? 10)%N then 48 + n else 87 + n)%N.

(** The value of a digit, [None] for any other character. *)
Definition hex_value (c : ascii) : option N :=
  let n := N_of_ascii c in
  if ((48 <=? n) && (n <=? 57))%N then Some (n - 48)%N
  else if ((97 <=? n) && (n <=? 102))%N then Some (n - 87)%N
  else None.

Fixpoint hex_encode (s : string) : string :=
  match s with
  | EmptyString => EmptyString
  | String a s' =>
      String (hex_digit (N_of_ascii a / 16))
        (String (hex_digit (N_of_ascii a mod 16)) (hex_encode s'))
  end.

Fixpoint hex_decode (s : string) : option string :=
  match s with
  | EmptyString => Some EmptyString
  | String _ EmptyString => None
  | String h (String l s') =>
      match hex_value h, hex_value l, hex_decode s' with
      | Some a, Some b, Some r => Some (String (ascii_of_N (16 * a + b)) r)
      | _, _, _ => None
      end
  end.

Fixpoint byte_sum (s : string) : N :=
  match s with
  | EmptyString => 0
  | String a s' => (N_of_ascii a + byte_sum s') mod 256
  end%N.

Definition sum_digest (s : string) : string :=
  String (ascii_of_N (byte_sum s)) EmptyString.

Definition hex : Encoding :=
  {| encode := hex_encode; decode := hex_decode |}.

Definition byte_checksum : Checksum :=
  {| digest := sum_digest; width := 1 |}.

(** A stand-in for the entropy source in the examples below: the [n]-th draw
    is sixteen copies of the [n]-th capital letter (so draws repeat with
    period 26). *)
Definition example_uuid (n : nat) : string :=
  String.string_of_list_ascii (replicate 16 (ascii_of_nat (65 + n mod 26))).

Definition ExampleDocUrl : DocUrl := SpecDocUrl hex byte_checksum example_uuid.

(** The first draw of [example_uuid] and its url. *)
Definition example_id : string := "AAAAAAAAAAAAAAAA".
Definition example_url : string := "automerge:4141414141414141414141414141414110".

(** A method keeps the share policy when it leaves the field alone. *)
Definition keeps_policy {A} (m : M A) : Prop :=
  forall r, sharePolicy (m r).2 = sharePolicy r.

(** *** Further predicates on registries and histories *)

(** The empty string is not a key of the cache. *)
Definition nonempty_keys (r : DocCollection) : Prop :=
  handleCache r !! "" = None.

(** Every cached handle has been announced by a [document] event. *)
Definition announced (r : DocCollection) : Prop :=
  forall id h, handleCache r !! id = Some h -> EmitDocument h ∈ emitted r.

(** No cached handle is in the [deleted] state. *)
Definition cached_live (r : DocCollection) : Prop :=
  forall id h d,
    handleCache r !! id = Some h -> heap r !! h = Some d -> state d <> Deleted.

(** A call that deletes a handle without going through the registry. *)
Definition direct_delete (c : Call) : bool :=
  match c with
  | CallTransition _ Deleted _ => true
  | _ => false
  end.

(** What a method of the registry can have done to the cache, the heap and
    the log of events when it returns or throws: nothing but emit or schedule;
    construct and cache a handle and announce it; delete the cached handle and
    forget it; or construct a handle only to delete it. *)
Inductive method_effect (r r' : DocCollection) : Prop :=
| effect_quiet (es : list Emission) :
    handleCache r' = handleCache r ->
    heap r' = heap r ->
    emitted r' = emitted r ++ es ->
    method_effect r r'
| effect_alloc (id : DocumentId) (isNew : bool) :
    handleCache r !! id = None ->
    id <> "" ->
    handleCache r' = <[id := length (heap r)]> (handleCache r) ->
    heap r' = heap r ++ [construct id isNew] ->
    emitted r' = emitted r ++ [EmitDocument (length (heap r))] ->
    method_effect r r'
| effect_delete (id : DocumentId) (h : href) (d : DocHandle) :
    handleCache r !! id = Some h ->
    heap r !! h = Some d ->
    handleCache r' = base.delete id (handleCache r) ->
    heap r' = alter (with_state Deleted None) h (heap r) ->
    emitted r' = emitted r ++ [EmitOnHandle h EvDelete h; EmitDeleteDocument id] ->
    method_effect r r'
| effect_transient (id : DocumentId) :
    handleCache r !! id = None ->
    id <> "" ->
    handleCache r' = handleCache r ->
    heap r' = heap r ++ [with_state Deleted None (construct id false)] ->
    emitted r' = emitted r ++
      [EmitOnHandle (length (heap r)) EvDelete (length (heap r)); EmitDeleteDocument id] ->
    method_effect r r'.

(** The names the object literal [{}] of the cache answers for without
    having them as own properties: the properties of [Object.prototype].  At
    these names the property read of [#getHandle] yields a value that is
    neither [undefined] nor a handle.  The finite map does not have them, so
    what is proved of an arbitrary argument string is proved off these
    names. *)
Definition Object_prototype : list string :=
  ["constructor"; "__proto__"; "hasOwnProperty"; "isPrototypeOf";
   "propertyIsEnumerable"; "toLocaleString"; "toString"; "valueOf";
   "__defineGetter__"; "__defineSetter__"; "__lookupGetter__"; "__lookupSetter__"].

Definition inherited (name : string) : bool :=
  bool_decide (name ∈ Object_prototype).

(** * Properties *)

Ltac unfold_monad :=
  unfold DocHandle_delete, emit, setTimeout, on, transition in *;
  unfold bind, ret, throw, gets, modify, lift, generate,
         new_DocHandle, isUnavailable, handle_emit in *.

Section Properties.
Context {codec : DocUrl}.

Lemma getHandle_cached (documentId : string) (isNew : bool) (r : DocCollection) (h : nat) :
  handleCache r !! documentId = Some h ->
  getHandle documentId isNew r = (Normal h, r).
Proof. intros Hc. unfold getHandle. unfold_monad. by rewrite Hc. Qed.

Lemma getHandle_fresh (documentId : string) (isNew : bool) (r : DocCollection) :
  handleCache r !! documentId = None ->
  documentId <> "" ->
  getHandle documentId isNew r =
    (Normal (length (heap r)),
     set_handleCache (<[documentId := length (heap r)]> (handleCache r))
       (set_heap (heap r ++ [construct documentId isNew]) r)).
Proof.
  intros Hc Hne. unfold getHandle, falsy. unfold_monad. rewrite Hc.
  by rewrite bool_decide_eq_false_2.
Qed.

Lemma getHandle_empty (isNew : bool) (r : DocCollection) :
  handleCache r !! "" = None ->
  getHandle "" isNew r = (Throw (Error "Invalid documentId "), r).
Proof. intros Hc. unfold getHandle, falsy. unfold_monad. by rewrite Hc. Qed.

Lemma DocHandle_delete_live (h : nat) (d : DocHandle) (r : DocCollection) :
  heap r !! h = Some d ->
  DocHandle_delete h r =
    (Normal tt,
     set_emitted (emitted r ++ [EmitOnHandle h EvDelete h])
       (delivered r ++ ((fun l => (l, EmitOnHandle h EvDelete h)) <$> receivers EvDelete d))
       (set_heap (alter (with_state Deleted None) h (heap r)) r)).
Proof.
  intros Hd. unfold_monad. cbn. rewrite list_lookup_alter_eq, Hd. reflexivity.
Qed.

(** C3: a url that fails validation makes [find] throw the invalid-url error
    and leaves the whole state as it was: same cache, same heap (no handle
    constructed), nothing emitted, nothing scheduled. *)
Theorem find_invalid_url (r : DocCollection) (url : string) :
  isValidAutomergeUrl url = false ->
  find url r = (Throw (InvalidUrlError url), r).
Proof. intros Hv. unfold find. rewrite Hv. reflexivity. Qed.

(** C7: for a valid url whose identifier is not cached, [find] constructs a
    handle with [isNew = false], which starts in [loading], caches it under
    the identifier, emits [document] with it and returns it. *)
Theorem find_uncached (r : DocCollection) (url id : string) :
  isValidAutomergeUrl url = true ->
  parseAutomergeUrl url = Normal id ->
  id <> "" ->
  handleCache r !! id = None ->
  let h := length (heap r) in
  let r' := {| handleCache := <[id := h]> (handleCache r);
               sharePolicy := sharePolicy r;
               heap := heap r ++ [construct id false];
               emitted := emitted r ++ [EmitDocument h];
               delivered := delivered r;
               timers := timers r;
               entropy := entropy r |} in
  find url r = (Normal h, r') /\
  heap r' !! h = Some (construct id false) /\
  isNew (construct id false) = false /\
  state (construct id false) = Loading /\
  handleCache r' !! id = Some h.
Proof.
  intros Hv Hp Hne Hc h r'. split_and!.
  - unfold find. rewrite Hv. cbn [negb]. unfold bind at 1, lift. rewrite Hp.
    unfold bind at 1, gets. rewrite Hc.
    unfold bind at 1. rewrite getHandle_fresh by done. reflexivity.
  - cbn. rewrite lookup_app_r by done. by rewrite Nat.sub_diag.
  - reflexivity.
  - reflexivity.
  - cbn. apply lookup_insert_eq.
Qed.

(** C4: when the generated url parses to an identifier that is not in the
    cache, [create] constructs a handle with [isNew = true], which is [ready]
    with the empty value from the start, caches it under the identifier,
    emits [document] with it and returns it. *)
Theorem create_fresh (r : DocCollection) (id : string) :
  parseAutomergeUrl (generateAutomergeUrl (entropy r)) = Normal id ->
  id <> "" ->
  handleCache r !! id = None ->
  let h := length (heap r) in
  let r' := {| handleCache := <[id := h]> (handleCache r);
               sharePolicy := sharePolicy r;
               heap := heap r ++ [construct id true];
               emitted := emitted r ++ [EmitDocument h];
               delivered := delivered r;
               timers := timers r;
               entropy := S (entropy r) |} in
  create r = (Normal h, r') /\
  heap r' !! h = Some (construct id true) /\
  isNew (construct id true) = true /\
  state (construct id true) = Ready /\
  doc (construct id true) = Some empty_doc /\
  handleCache r' !! id = Some h.
Proof.
  intros Hp Hne Hc h r'. split_and!.
  - unfold create. unfold bind at 1, generate. unfold bind at 1, lift. rewrite Hp.
    unfold bind at 1. rewrite getHandle_fresh by done. reflexivity.
  - cbn. rewrite lookup_app_r by done. by rewrite Nat.sub_diag.
  - reflexivity.
  - reflexivity.
  - reflexivity.
  - cbn. apply lookup_insert_eq.
Qed.

(** *** The invariant is kept by every call *)

Lemma inv_new : registry_inv new_DocCollection.
Proof. split; [intros id h | intros h d]; cbn; by rewrite ?lookup_empty. Qed.

Lemma inv_ext (r r' : DocCollection) :
  handleCache r' = handleCache r -> heap r' = heap r ->
  registry_inv r -> registry_inv r'.
Proof. intros Hc Hh [Hs Hl]. split; rewrite Hc, Hh; done. Qed.

Ltac inv_frame := eapply inv_ext; [| |eassumption]; reflexivity.

Lemma inv_alter (f : DocHandle -> DocHandle) (h : nat) (r : DocCollection) :
  (forall x, documentId (f x) = documentId x) ->
  (forall x, state (f x) <> Deleted -> state x <> Deleted) ->
  registry_inv r ->
  registry_inv (set_heap (alter f h (heap r)) r).
Proof.
  intros Hid Hst [Hs Hl]. split; cbn.
  - intros id h' Hc. destruct (Hs id h' Hc) as (d & Hd & Hdid).
    destruct (decide (h = h')) as [->|Hne].
    + exists (f d). rewrite list_lookup_alter_eq, Hd. by rewrite Hid.
    + exists d. by rewrite list_lookup_alter_ne.
  - intros h' d'. destruct (decide (h = h')) as [->|Hne].
    + rewrite list_lookup_alter_eq. destruct (heap r !! h') as [x|] eqn:Hx; [|done].
      intros [= <-] Hlive. rewrite Hid. eauto.
    + rewrite list_lookup_alter_ne by done. apply Hl.
Qed.

Lemma inv_alloc (id : string) (isNew : bool) (r : DocCollection) :
  handleCache r !! id = None ->
  registry_inv r ->
  registry_inv (set_handleCache (<[id := length (heap r)]> (handleCache r))
                  (set_heap (heap r ++ [construct id isNew]) r)).
Proof.
  intros Hc [Hs Hl]. split; cbn.
  - intros id' h'. rewrite lookup_insert. case_decide as Hid.
    + intros [= <-]. subst id'. exists (construct id isNew).
      rewrite lookup_app_r, Nat.sub_diag by done. done.
    + intros Hc'. destruct (Hs id' h' Hc') as (d & Hd & Hdid).
      exists d. split; [|done]. by apply lookup_app_l_Some.
  - intros h' d' Hd' Hlive. apply lookup_app_Some in Hd' as [Hd'|[Hlen Hd']].
    + pose proof (Hl _ _ Hd' Hlive) as Hc'.
      rewrite lookup_insert_ne; [done|]. intros Heq. congruence.
    + apply list_lookup_singleton_Some in Hd' as [Hz <-]. cbn.
      rewrite lookup_insert_eq. f_equal. lia.
Qed.

Lemma inv_forget (id : string) (r : DocCollection) :
  (forall h d, handleCache r !! id = Some h -> heap r !! h = Some d -> state d = Deleted) ->
  registry_inv r ->
  registry_inv (set_handleCache (base.delete id (handleCache r)) r).
Proof.
  intros Hdel [Hs Hl]. split; cbn.
  - intros id' h'. rewrite lookup_delete. case_decide; [done|]. apply Hs.
  - intros h' d' Hd' Hlive. pose proof (Hl _ _ Hd' Hlive) as Hc'.
    rewrite lookup_delete_ne; [done|]. intros Heq. subst id. by eapply Hlive, Hdel.
Qed.

Lemma getHandle_cases (id : string) (isNew : bool) (r : DocCollection) :
  (exists h, handleCache r !! id = Some h /\ getHandle id isNew r = (Normal h, r)) \/
  (handleCache r !! id = None /\ id = "" /\
   getHandle id isNew r = (Throw (Error "Invalid documentId "), r)) \/
  (handleCache r !! id = None /\ id <> "" /\
   getHandle id isNew r =
     (Normal (length (heap r)),
      set_handleCache (<[id := length (heap r)]> (handleCache r))
        (set_heap (heap r ++ [construct id isNew]) r))).
Proof.
  destruct (handleCache r !! id) as [h|] eqn:Hc.
  - left. exists h. split; [done|]. by apply getHandle_cached.
  - right. destruct (decide (id = "")) as [->|Hne].
    + left. split_and!; [done..|]. by apply getHandle_empty.
    + right. split_and!; [done..|]. by apply getHandle_fresh.
Qed.

Lemma inv_getHandle (id : string) (isNew : bool) (r : DocCollection) :
  registry_inv r -> registry_inv (getHandle id isNew r).2.
Proof.
  intros Hinv.
  destruct (getHandle_cases id isNew r) as [(h & _ & ->)|[(_ & _ & ->)|(Hc & _ & ->)]];
    cbn; [done..|]. by apply inv_alloc.
Qed.

Lemma getHandle_returns (id : string) (isNew : bool) (r r' : DocCollection) (h : nat) :
  registry_inv r ->
  getHandle id isNew r = (Normal h, r') ->
  handleCache r' !! id = Some h /\ is_Some (heap r' !! h).
Proof.
  intros Hinv.
  destruct (getHandle_cases id isNew r) as [(h' & Hc & ->)|[(_ & _ & ->)|(Hc & _ & ->)]];
    intros [= <- <-].
  - split; [done|]. destruct (cache_sound _ Hinv _ _ Hc) as (d & -> & _). eauto.
  - cbn. rewrite lookup_insert_eq. split; [done|].
    rewrite lookup_app_r, Nat.sub_diag by done. eauto.
Qed.

Lemma inv_create (r : DocCollection) : registry_inv r -> registry_inv (create r).2.
Proof.
  intros Hinv. unfold create. unfold bind at 1, generate. unfold bind at 1, lift.
  destruct (parseAutomergeUrl _) as [id|e]; [|cbn; inv_frame].
  unfold bind at 1.
  pose proof (inv_getHandle id true (set_entropy (S (entropy r)) r)) as Hg.
  destruct (getHandle id true _) as [[h|e] r1]; cbn in *.
  - eapply inv_ext; [| |apply Hg; inv_frame]; done.
  - apply Hg. inv_frame.
Qed.

Lemma inv_find (url : string) (r : DocCollection) :
  registry_inv r -> registry_inv (find url r).2.
Proof.
  intros Hinv. unfold find. destruct (isValidAutomergeUrl url); cbn [negb]; [|done].
  unfold bind at 1, lift. destruct (parseAutomergeUrl url) as [id|e]; [|done].
  unfold bind at 1, gets. destruct (handleCache r !! id) as [h|] eqn:Hc.
  - unfold_monad. destruct (heap r !! h) as [d|]; [|done].
    case_bool_decide; cbn; [inv_frame|done].
  - unfold bind at 1. pose proof (inv_getHandle id false r Hinv) as Hg.
    destruct (getHandle id false r) as [[h|e] r1]; cbn in *; [|done].
    inv_frame.
Qed.

Lemma inv_delete (arg : string) (r : DocCollection) :
  registry_inv r -> registry_inv (delete arg r).2.
Proof.
  intros Hinv. unfold delete. unfold bind at 1.
  assert (forall id, registry_inv
      (bind (getHandle id false) (fun handle =>
         bind (DocHandle_delete handle) (fun _ =>
         bind (modify (fun r => set_handleCache (base.delete id (handleCache r)) r))
              (fun _ => emit (EmitDeleteDocument id)))) r).2) as Hrest.
  { intros id. unfold bind at 1.
    pose proof (inv_getHandle id false r Hinv) as Hg.
    pose proof (getHandle_returns id false r) as Hr.
    destruct (getHandle id false r) as [[h|e] r1]; cbn in Hg; [|done].
    destruct (Hr r1 h Hinv eq_refl) as [Hc [d Hd]].
    unfold bind at 1. rewrite (DocHandle_delete_live h d) by done.
    unfold_monad. cbn.
    eapply inv_ext; [| |apply (inv_forget id), (inv_alter (with_state Deleted None) h r1)];
      try done.
    cbn. intros h' d'. rewrite Hc. intros [= <-].
    rewrite list_lookup_alter_eq, Hd. by intros [= <-]. }
  destruct (isValidAutomergeUrl arg).
  - unfold lift. destruct (parseAutomergeUrl arg) as [id|e]; [apply Hrest|done].
  - apply Hrest.
Qed.

Lemma inv_tick (r : DocCollection) : registry_inv r -> registry_inv (tick r).2.
Proof.
  intros Hinv. unfold tick. destruct (timers r) as [|[id] ts]; [done|].
  unfold run_task. unfold_monad. cbn. destruct (handleCache r !! id) as [h|]; cbn.
  - destruct (heap r !! h); cbn; inv_frame.
  - inv_frame.
Qed.

Lemma handle_step_deleted (s s' : HandleState) : handle_step s s' = true -> s <> Deleted.
Proof. by destruct s. Qed.

Lemma inv_exec (c : Call) (r : DocCollection) : registry_inv r -> registry_inv (exec c r).
Proof.
  intros Hinv. destruct c as [|url|id|h ev l|h s' d|]; cbn [exec].
  - by apply inv_create.
  - by apply inv_find.
  - by apply inv_delete.
  - by apply inv_alter.
  - apply inv_alter; [| |done].
    + intros x. by destruct (handle_step _ _).
    + intros x. destruct (handle_step _ _) eqn:Hs; [|done].
      intros _. by eapply handle_step_deleted.
  - by apply inv_tick.
Qed.

Lemma inv_run (cs : list Call) (r : DocCollection) :
  registry_inv r -> registry_inv (run cs r).
Proof.
  revert r. induction cs as [|c cs IH]; intros r Hinv; [done|].
  cbn. apply IH. by apply inv_exec.
Qed.

(** At most one handle that is not deleted exists per identifier. *)
Lemma live_handle_unique (r : DocCollection) (h1 h2 : nat) (d1 d2 : DocHandle) :
  registry_inv r ->
  heap r !! h1 = Some d1 -> heap r !! h2 = Some d2 ->
  documentId d1 = documentId d2 ->
  state d1 <> Deleted -> state d2 <> Deleted ->
  h1 = h2.
Proof.
  intros Hinv H1 H2 Hid L1 L2.
  pose proof (live_cached _ Hinv _ _ H1 L1) as C1.
  pose proof (live_cached _ Hinv _ _ H2 L2) as C2.
  rewrite Hid in C1. congruence.
Qed.

(** Distinct identifiers are cached with distinct handle objects. *)
Lemma cache_injective (r : DocCollection) (id1 id2 : string) (h : nat) :
  registry_inv r ->
  handleCache r !! id1 = Some h -> handleCache r !! id2 = Some h -> id1 = id2.
Proof.
  intros Hinv H1 H2.
  destruct (cache_sound _ Hinv _ _ H1) as (d1 & Hd1 & <-).
  destruct (cache_sound _ Hinv _ _ H2) as (d2 & Hd2 & <-).
  congruence.
Qed.

(** *** [delete] *)

Lemma delete_resolved (arg id : string) (r : DocCollection) :
  (if isValidAutomergeUrl arg then parseAutomergeUrl arg else Normal arg) = Normal id ->
  delete arg r =
    bind (getHandle id false) (fun handle =>
      bind (DocHandle_delete handle) (fun _ =>
      bind (modify (fun r => set_handleCache (base.delete id (handleCache r)) r))
           (fun _ => emit (EmitDeleteDocument id)))) r.
Proof.
  intros Hres. unfold delete. unfold bind at 1.
  destruct (isValidAutomergeUrl arg).
  - unfold lift. by rewrite Hres.
  - unfold ret. by injection Hres as ->.
Qed.

(** What [delete] does to the cached handle of the identifier. *)
Lemma delete_cached (arg id : string) (r : DocCollection) (h : nat) (d : DocHandle) :
  (if isValidAutomergeUrl arg then parseAutomergeUrl arg else Normal arg) = Normal id ->
  handleCache r !! id = Some h ->
  heap r !! h = Some d ->
  delete arg r =
    (Normal tt,
     {| handleCache := base.delete id (handleCache r);
        sharePolicy := sharePolicy r;
        heap := alter (with_state Deleted None) h (heap r);
        emitted := emitted r ++ [EmitOnHandle h EvDelete h; EmitDeleteDocument id];
        delivered := delivered r ++
          ((fun l => (l, EmitOnHandle h EvDelete h)) <$> receivers EvDelete d);
        timers := timers r;
        entropy := entropy r |}).
Proof.
  intros Hres Hc Hd. rewrite (delete_resolved arg id) by done.
  unfold bind at 1. rewrite (getHandle_cached _ _ _ h) by done.
  unfold bind at 1. rewrite (DocHandle_delete_live h d) by done.
  unfold_monad. cbn. by rewrite <- app_assoc.
Qed.

(** What [delete] does when nothing is cached for the identifier. *)
Lemma delete_uncached (arg id : string) (r : DocCollection) :
  (if isValidAutomergeUrl arg then parseAutomergeUrl arg else Normal arg) = Normal id ->
  id <> "" ->
  handleCache r !! id = None ->
  delete arg r =
    (Normal tt,
     {| handleCache := handleCache r;
        sharePolicy := sharePolicy r;
        heap := heap r ++ [with_state Deleted None (construct id false)];
        emitted := emitted r ++
          [EmitOnHandle (length (heap r)) EvDelete (length (heap r)); EmitDeleteDocument id];
        delivered := delivered r;
        timers := timers r;
        entropy := entropy r |}).
Proof.
  intros Hres Hne Hc. rewrite (delete_resolved arg id) by done.
  unfold bind at 1. rewrite getHandle_fresh by done.
  unfold bind at 1. rewrite (DocHandle_delete_live _ (construct id false)).
  2:{ cbn. by rewrite lookup_app_r, Nat.sub_diag. }
  unfold_monad. cbn.
  rewrite delete_insert_eq, (delete_id _ id) by done.
  rewrite alter_app_r_alt, Nat.sub_diag by done. cbn.
  by rewrite app_nil_r, <- app_assoc.
Qed.

(** C5: [delete] resolves its argument to an identifier (the identifier of a
    valid url, the argument itself otherwise; an identifier is not empty and
    names no inherited property of the cache), deletes the handle cached for
    it, or a handle constructed for the occasion when none is cached, so that
    a deletion notification is emitted on a handle either way, removes the
    cache entry and emits [delete-document] with the identifier. *)
Theorem delete_spec (arg id : string) (r : DocCollection) :
  registry_inv r ->
  (if isValidAutomergeUrl arg then parseAutomergeUrl arg else Normal arg) = Normal id ->
  id <> "" ->
  inherited id = false ->
  exists (h : nat) (d : DocHandle) (r' : DocCollection),
    delete arg r = (Normal tt, r') /\
    (handleCache r !! id = Some h /\ heap r !! h = Some d \/
     handleCache r !! id = None /\ h = length (heap r) /\ d = construct id false) /\
    heap r' !! h = Some (with_state Deleted None d) /\
    documentId d = id /\
    handleCache r' = base.delete id (handleCache r) /\
    handleCache r' !! id = None /\
    emitted r' = emitted r ++ [EmitOnHandle h EvDelete h; EmitDeleteDocument id].
Proof.
  intros Hinv Hres Hne _. destruct (handleCache r !! id) as [h|] eqn:Hc.
  - destruct (cache_sound _ Hinv _ _ Hc) as (d & Hd & Hid).
    exists h, d. eexists. split; [by apply (delete_cached arg id r h d)|]. cbn.
    split_and!; [by left|by rewrite list_lookup_alter_eq, Hd|done|done| |done].
    apply lookup_delete_eq.
  - exists (length (heap r)), (construct id false). eexists.
    split; [by apply (delete_uncached arg id r)|]. cbn.
    split_and!; [by right| |done| |done..].
    + by rewrite lookup_app_r, Nat.sub_diag.
    + by rewrite delete_id.
Qed.

(** C9 (amended): an argument that is not a valid url, not empty and not the
    name of an inherited property of the cache is taken as the identifier as
    it stands, and [delete] does not throw; the handle
    cached under it is deleted when there is one, and only otherwise is a
    handle constructed for it and deleted; [delete-document] is emitted with
    the argument. *)
Theorem delete_unvalidated (arg : string) (r : DocCollection) :
  registry_inv r ->
  isValidAutomergeUrl arg = false ->
  arg <> "" ->
  inherited arg = false ->
  exists (h : nat) (r' : DocCollection),
    delete arg r = (Normal tt, r') /\
    (state <$> heap r' !! h) = Some Deleted /\
    (documentId <$> heap r' !! h) = Some arg /\
    match handleCache r !! arg with
    | Some cached => h = cached /\ length (heap r') = length (heap r)
    | None => h = length (heap r) /\
              heap r' = heap r ++ [with_state Deleted None (construct arg false)]
    end /\
    handleCache r' !! arg = None /\
    emitted r' = emitted r ++ [EmitOnHandle h EvDelete h; EmitDeleteDocument arg].
Proof.
  intros Hinv Hv Hne _.
  assert ((if isValidAutomergeUrl arg then parseAutomergeUrl arg else Normal arg)
          = Normal arg) as Hres by by rewrite Hv.
  destruct (handleCache r !! arg) as [h|] eqn:Hc.
  - destruct (cache_sound _ Hinv _ _ Hc) as (d & Hd & Hid).
    exists h. eexists. split; [by apply (delete_cached arg arg r h d)|]. cbn.
    rewrite list_lookup_alter_eq, Hd, length_alter. cbn.
    split_and!; [done|by rewrite Hid|done|done| |done]. apply lookup_delete_eq.
  - exists (length (heap r)). eexists.
    split; [by apply (delete_uncached arg arg r)|]. cbn.
    rewrite lookup_app_r, Nat.sub_diag by done. cbn.
    split_and!; done.
Qed.

(** *** [find] on a cached identifier *)

Lemma find_hit (r : DocCollection) (url id : string) (h : nat) (d : DocHandle) :
  isValidAutomergeUrl url = true ->
  parseAutomergeUrl url = Normal id ->
  handleCache r !! id = Some h ->
  heap r !! h = Some d ->
  find url r =
    (Normal h,
     if bool_decide (state d = Unavailable)
     then set_timers (timers r ++ [ReannounceUnavailable id]) r
     else r).
Proof.
  intros Hv Hp Hc Hd. unfold find. rewrite Hv. cbn [negb].
  unfold bind at 1, lift. rewrite Hp. unfold bind at 1, gets. rewrite Hc.
  unfold_monad. rewrite Hd. by case_bool_decide.
Qed.

(** C6: for a valid url whose identifier is cached, [find] returns the cached
    handle.  If that handle is unavailable, the call itself emits nothing and
    schedules one task; when the task runs, [unavailable] is emitted once on
    the handle, and a listener that subscribed after [find] returned receives
    it once.  If the handle is not unavailable, [find] changes nothing. *)
Theorem find_cached (r : DocCollection) (url id : string) (h : nat) (d : DocHandle) :
  isValidAutomergeUrl url = true ->
  parseAutomergeUrl url = Normal id ->
  handleCache r !! id = Some h ->
  heap r !! h = Some d ->
  (state d = Unavailable ->
   let e := EmitOnHandle h EvUnavailable h in
   let r1 := set_timers (timers r ++ [ReannounceUnavailable id]) r in
   find url r = (Normal h, r1) /\
   emitted r1 = emitted r /\
   forall l : nat,
     exists r3,
       run_task (ReannounceUnavailable id) (on h EvUnavailable l r1).2 = (Normal tt, r3) /\
       emitted r3 = emitted r ++ [e] /\
       delivered r3 =
         delivered r ++ ((fun l' => (l', e)) <$> receivers EvUnavailable d) ++ [(l, e)]) /\
  (state d <> Unavailable -> find url r = (Normal h, r)).
Proof.
  intros Hv Hp Hc Hd. rewrite (find_hit r url id h d) by done. split.
  - intros Hs. rewrite bool_decide_eq_true_2 by done. cbn. split_and!; [done..|].
    intros l. eexists. unfold run_task. unfold_monad. cbn. rewrite Hc. cbn.
    rewrite list_lookup_alter_eq, Hd. cbn. split_and!; [done..|].
    unfold receivers. cbn. rewrite filter_app, fmap_app.
    rewrite filter_cons_True by done. by rewrite fmap_app.
  - intros Hs. by rewrite bool_decide_eq_false_2.
Qed.

(** C2 (amended): when [find] has returned a handle, calling it again with
    the same url returns the same handle, constructs nothing, emits nothing
    and leaves the cache as it is; all it may do is schedule one more
    re-announcement, and it does so exactly when the handle is unavailable. *)
Theorem find_again (r r1 : DocCollection) (url : string) (h : nat) :
  find url r = (Normal h, r1) ->
  exists (id : string) (d : DocHandle) (r2 : DocCollection),
    parseAutomergeUrl url = Normal id /\
    heap r1 !! h = Some d /\
    find url r1 = (Normal h, r2) /\
    handleCache r2 = handleCache r1 /\
    heap r2 = heap r1 /\
    emitted r2 = emitted r1 /\
    delivered r2 = delivered r1 /\
    entropy r2 = entropy r1 /\
    timers r2 = timers r1 ++
      (if bool_decide (state d = Unavailable) then [ReannounceUnavailable id] else []).
Proof.
  unfold find at 1. destruct (isValidAutomergeUrl url) eqn:Hv; cbn [negb]; [|done].
  unfold bind at 1, lift. destruct (parseAutomergeUrl url) as [id|e] eqn:Hp; [|done].
  unfold bind at 1, gets. destruct (handleCache r !! id) as [h0|] eqn:Hc.
  - unfold_monad. destruct (heap r !! h0) as [d|] eqn:Hd; [|done].
    intros Hfind. exists id, d.
    assert (h0 = h /\ handleCache r1 = handleCache r /\ heap r1 = heap r) as (-> & Hc1 & Hh1).
    { case_bool_decide; by injection Hfind as <- <-. }
    eexists. split; [done|]. split; [by rewrite Hh1|]. split.
    + apply (find_hit r1 url id h d); [done..|by rewrite Hc1|by rewrite Hh1].
    + case_bool_decide; cbn; by rewrite ?app_nil_r.
  - unfold bind at 1.
    destruct (getHandle_cases id false r) as [(h' & ? & _)|[(_ & _ & ->)|(_ & Hne & ->)]];
      [congruence|done|].
    unfold_monad. cbn. intros [= <- <-].
    exists id, (construct id false). eexists.
    split; [done|]. split; [cbn; by rewrite lookup_app_r, Nat.sub_diag|]. split.
    + apply (find_hit _ url id _ (construct id false)); [done..| |]; cbn.
      * apply lookup_insert_eq.
      * by rewrite lookup_app_r, Nat.sub_diag.
    + cbn. by rewrite app_nil_r.
Qed.

(** *** The share policy *)

Lemma keeps_bind {A B} (m : M A) (k : A -> M B) :
  keeps_policy m -> (forall a, keeps_policy (k a)) -> keeps_policy (bind m k).
Proof.
  intros Hm Hk r. unfold bind. specialize (Hm r).
  destruct (m r) as [[a|e] r1]; cbn in *; [|done]. by rewrite Hk.
Qed.

Lemma keeps_getHandle (id : string) (isNew : bool) : keeps_policy (getHandle id isNew).
Proof.
  intros r.
  by destruct (getHandle_cases id isNew r) as [(h & _ & ->)|[(_ & _ & ->)|(_ & _ & ->)]].
Qed.

Lemma keeps_handle_emit (h : nat) (ev : HandleEvent) (p : nat) : keeps_policy (handle_emit h ev p).
Proof. intros r. unfold handle_emit. by destruct (heap r !! h). Qed.

Lemma keeps_lift {A} (c : Completion A) : keeps_policy (lift c).
Proof. done. Qed.

Ltac keeps :=
  lazymatch goal with
  | |- keeps_policy (bind _ _) => apply keeps_bind; [keeps|intros ?; keeps]
  | |- keeps_policy (getHandle _ _) => apply keeps_getHandle
  | |- keeps_policy (handle_emit _ _ _) => apply keeps_handle_emit
  | |- keeps_policy _ => intros ?; reflexivity
  end.

Lemma keeps_create : keeps_policy create.
Proof. unfold create. keeps. Qed.

Lemma keeps_isUnavailable (h : nat) : keeps_policy (isUnavailable h).
Proof. intros r. unfold isUnavailable. by destruct (heap r !! h). Qed.

Lemma keeps_find (url : string) : keeps_policy (find url).
Proof.
  unfold find. destruct (negb _); [keeps|].
  apply keeps_bind; [keeps|intros id].
  apply keeps_bind; [keeps|intros [h|]]; [|keeps].
  apply keeps_bind; [apply keeps_isUnavailable|intros []]; keeps.
Qed.

Lemma keeps_delete (arg : string) : keeps_policy (delete arg).
Proof.
  unfold delete, DocHandle_delete.
  apply keeps_bind; [destruct (isValidAutomergeUrl arg); keeps|intros id]. keeps.
Qed.

Lemma keeps_tick : keeps_policy tick.
Proof.
  intros r. unfold tick. destruct (timers r) as [|[id] ts]; [done|].
  unfold run_task.
  change (sharePolicy r) with (sharePolicy (set_timers ts r)).
  apply keeps_bind; [keeps|intros [h|]]; keeps.
Qed.

Lemma exec_sharePolicy (c : Call) (r : DocCollection) :
  sharePolicy (exec c r) = sharePolicy r.
Proof.
  destruct c; cbn [exec];
    [apply keeps_create|apply keeps_find|apply keeps_delete|done|done|apply keeps_tick].
Qed.

Lemma run_sharePolicy (cs : list Call) (r : DocCollection) :
  sharePolicy (run cs r) = sharePolicy r.
Proof.
  revert r. induction cs as [|c cs IH]; intros r; [done|].
  rewrite <- (exec_sharePolicy c r). apply IH.
Qed.

(** C10: a registry is born with the policy that shares every document with
    every peer, and no method of the registry ever replaces it: along every
    history of a new registry the policy answers [true] for every peer and
    every document. *)
Theorem sharePolicy_generous (cs : list Call) (peerId : string) (documentId : option string) :
  sharePolicy (run cs new_DocCollection) peerId documentId = Fulfilled true.
Proof. by rewrite run_sharePolicy. Qed.

End Properties.

(** ** Properties of the codec of the specification *)

Lemma strip_prefix_app (p s : string) : strip_prefix p (p +:+ s) = Some s.
Proof.
  induction p as [|a p IH]; [by destruct s|].
  simpl. by destruct (decide (a = a)).
Qed.

Lemma string_length_app (a b : string) :
  String.length (a +:+ b) = String.length a + String.length b.
Proof. induction a as [|c a IH]; simpl; [done|]. by rewrite IH. Qed.

Lemma split_at_app (a b : string) : split_at (String.length a) (a +:+ b) = (a, b).
Proof.
  induction a as [|c a IH]; simpl; [by destruct b|]. by rewrite IH.
Qed.

Section SpecCodecProperties.
Variable enc : Encoding.
Variable sum : Checksum.
Variable uuid : nat -> string.
Hypothesis enc_lossless : lossless enc.
Hypothesis sum_fixed : fixed_width sum.

Lemma spec_parse_stringify (id : string) :
  spec_parse enc sum (stringifyAutomergeUrl enc sum id) = Normal id.
Proof.
  unfold spec_parse, stringifyAutomergeUrl.
  rewrite strip_prefix_app, enc_lossless.
  rewrite string_length_app, sum_fixed, Nat.add_sub, split_at_app.
  by rewrite bool_decide_eq_true_2.
Qed.

Lemma spec_isValid_stringify (id : string) :
  spec_isValid enc sum (stringifyAutomergeUrl enc sum id) = true.
Proof. unfold spec_isValid. by rewrite spec_parse_stringify. Qed.

(** C8: the identifier under which [create] registers the handle it returns
    is the one parsed from the generated url; its string form is a valid url
    and parses back to the same identifier. *)
Theorem created_id_roundtrip (r r' : DocCollection) (h : nat) :
  create (codec := SpecDocUrl enc sum uuid) r = (Normal h, r') ->
  exists id : string,
    spec_parse enc sum (spec_generate enc sum uuid (entropy r)) = Normal id /\
    handleCache r' !! id = Some h /\
    spec_isValid enc sum (stringifyAutomergeUrl enc sum id) = true /\
    spec_parse enc sum (stringifyAutomergeUrl enc sum id) = Normal id.
Proof.
  intros Hcreate. exists (uuid (entropy r)).
  assert (spec_parse enc sum (spec_generate enc sum uuid (entropy r))
          = Normal (uuid (entropy r))) as Hp by apply spec_parse_stringify.
  split_and!; [done| |apply spec_isValid_stringify|apply spec_parse_stringify].
  revert Hcreate. unfold create. unfold bind at 1, generate. unfold bind at 1, lift.
  cbn [generateAutomergeUrl parseAutomergeUrl SpecDocUrl]. rewrite Hp.
  unfold bind at 1.
  destruct (getHandle_cases (uuid (entropy r)) true (set_entropy (S (entropy r)) r))
    as [(h' & Hc & ->)|[(_ & _ & ->)|(_ & _ & ->)]]; [|done|].
  - unfold_monad. by intros [= <- <-].
  - unfold_monad. intros [= <- <-]. cbn. apply lookup_insert_eq.
Qed.

End SpecCodecProperties.

Lemma hex_byte (a : ascii) :
  match hex_value (hex_digit (N_of_ascii a / 16)),
        hex_value (hex_digit (N_of_ascii a mod 16)) with
  | Some x, Some y => ascii_of_N (16 * x + y) = a
  | _, _ => False
  end.
Proof. destruct a as [[] [] [] [] [] [] [] []]; vm_compute; reflexivity. Qed.

Lemma hex_lossless : lossless hex.
Proof.
  intros s. induction s as [|a s IH]; [reflexivity|].
  cbn [hex encode decode hex_encode hex_decode] in *. pose proof (hex_byte a) as Ha.
  destruct (hex_value (hex_digit (N_of_ascii a / 16))) as [x|]; [|contradiction].
  destruct (hex_value (hex_digit (N_of_ascii a mod 16))) as [y|]; [|contradiction].
  rewrite IH. by rewrite Ha.
Qed.

Lemma byte_checksum_fixed : fixed_width byte_checksum.
Proof. intros s. reflexivity. Qed.

(** ** Examples *)

Section Examples.
#[local] Existing Instance ExampleDocUrl.

Lemma example_url_parses :
  isValidAutomergeUrl example_url = true /\ parseAutomergeUrl example_url = Normal example_id.
Proof. split; vm_compute; reflexivity. Qed.

(** C1, as stated, fails: after [find], [delete] and [find] again for one
    url, two handle objects have been constructed for its identifier, and the
    two calls of [find] returned different instances. *)
Lemma second_handle_after_delete :
  let r1 := run [CallFind example_url; CallDelete example_url] new_DocCollection in
  (find example_url new_DocCollection).1 = Normal 0 /\
  (find example_url r1).1 = Normal 1 /\
  handles_of example_id (find example_url r1).2 = [0; 1] /\
  handleCache (find example_url r1).2 !! example_id = Some 1.
Proof. vm_compute. split_and!; reflexivity. Qed.

(** C2, as stated, fails.  Called twice in a row on an unavailable handle,
    [find] schedules a second re-announcement, and [unavailable] is emitted
    twice; and when the handle becomes unavailable between the two calls, the
    second call schedules a re-announcement while the first scheduled none. *)
Lemma find_twice_reannounces :
  let r0 := run [CallFind example_url; CallTransition 0 Unavailable None] new_DocCollection in
  let r1 := (find example_url r0).2 in
  let r2 := (find example_url r1).2 in
  (find example_url r0).1 = Normal 0 /\
  (find example_url r1).1 = Normal 0 /\
  timers r1 = [ReannounceUnavailable example_id] /\
  timers r2 = [ReannounceUnavailable example_id; ReannounceUnavailable example_id] /\
  r2 <> r1 /\
  emitted (run [CallTick; CallTick] r2) =
    emitted r0 ++ [EmitOnHandle 0 EvUnavailable 0; EmitOnHandle 0 EvUnavailable 0] /\
  timers (find example_url new_DocCollection).2 = [] /\
  timers r0 = [].
Proof.
  cbv zeta. split_and!; try (vm_compute; reflexivity).
  intros Heq. apply (f_equal timers) in Heq. vm_compute in Heq. discriminate.
Qed.

(** C9, as stated, fails: the identifier of a cached document is a non-empty
    string that is not a valid url, and [delete] of it constructs no handle;
    the handle it deletes is the cached one. *)
Lemma delete_cached_id_constructs_nothing :
  let r0 := run [CallFind example_url] new_DocCollection in
  isValidAutomergeUrl example_id = false /\
  example_id <> "" /\
  (find example_url new_DocCollection).1 = Normal 0 /\
  (delete example_id r0).1 = Normal tt /\
  heap r0 = [construct example_id false] /\
  heap (delete example_id r0).2 = [with_state Deleted None (construct example_id false)] /\
  emitted (delete example_id r0).2 =
    [EmitDocument 0; EmitOnHandle 0 EvDelete 0; EmitDeleteDocument example_id].
Proof. cbv zeta. split_and!; try (vm_compute; reflexivity). discriminate. Qed.

Lemma find_invalid_url_witness :
  find "not-a-url" new_DocCollection = (Throw (InvalidUrlError "not-a-url"), new_DocCollection).
Proof. apply find_invalid_url. vm_compute. reflexivity. Defined.

Lemma find_uncached_witness :
  find example_url new_DocCollection =
    (Normal 0,
     {| handleCache := {[ example_id := 0 ]};
        sharePolicy := default_sharePolicy;
        heap := [construct example_id false];
        emitted := [EmitDocument 0];
        delivered := [];
        timers := [];
        entropy := 0 |}).
Proof.
  apply (find_uncached new_DocCollection example_url example_id);
    [vm_compute; reflexivity|vm_compute; reflexivity|discriminate|reflexivity].
Defined.

Lemma create_fresh_witness :
  create new_DocCollection =
    (Normal 0,
     {| handleCache := {[ example_id := 0 ]};
        sharePolicy := default_sharePolicy;
        heap := [construct example_id true];
        emitted := [EmitDocument 0];
        delivered := [];
        timers := [];
        entropy := 1 |}).
Proof.
  apply (create_fresh new_DocCollection example_id);
    [vm_compute; reflexivity|discriminate|reflexivity].
Defined.

Lemma delete_spec_witness :
  exists (h : nat) (d : DocHandle) (r' : DocCollection),
    delete example_url (run [CallCreate] new_DocCollection) = (Normal tt, r') /\
    (handleCache (run [CallCreate] new_DocCollection) !! example_id = Some h /\
     heap (run [CallCreate] new_DocCollection) !! h = Some d \/
     handleCache (run [CallCreate] new_DocCollection) !! example_id = None /\
     h = length (heap (run [CallCreate] new_DocCollection)) /\
     d = construct example_id false) /\
    heap r' !! h = Some (with_state Deleted None d) /\
    documentId d = example_id /\
    handleCache r' = base.delete example_id (handleCache (run [CallCreate] new_DocCollection)) /\
    handleCache r' !! example_id = None /\
    emitted r' = emitted (run [CallCreate] new_DocCollection) ++
                 [EmitOnHandle h EvDelete h; EmitDeleteDocument example_id].
Proof.
  apply (delete_spec example_url example_id (run [CallCreate] new_DocCollection));
    [apply inv_run, inv_new|vm_compute; reflexivity|discriminate|vm_compute; reflexivity].
Defined.

Lemma delete_unvalidated_witness :
  exists (h : nat) (r' : DocCollection),
    delete "scratch" new_DocCollection = (Normal tt, r') /\
    (state <$> heap r' !! h) = Some Deleted /\
    (documentId <$> heap r' !! h) = Some "scratch" /\
    (h = 0 /\ heap r' = [with_state Deleted None (construct "scratch" false)]) /\
    handleCache r' !! "scratch" = None /\
    emitted r' = [EmitOnHandle h EvDelete h; EmitDeleteDocument "scratch"].
Proof.
  apply (delete_unvalidated "scratch" new_DocCollection);
    [apply inv_new|vm_compute; reflexivity|discriminate|vm_compute; reflexivity].
Defined.

Lemma find_cached_witness :
  let r := run [CallFind example_url; CallTransition 0 Unavailable None] new_DocCollection in
  find example_url r = (Normal 0, set_timers [ReannounceUnavailable example_id] r).
Proof.
  cbv zeta.
  refine (proj1 (proj1 (find_cached _ example_url example_id 0
                          (with_state Unavailable None (construct example_id false))
                          _ _ _ _) _));
    vm_compute; reflexivity.
Defined.

Lemma find_again_witness :
  exists (id : string) (d : DocHandle) (r2 : DocCollection),
    let r1 := (find example_url new_DocCollection).2 in
    parseAutomergeUrl example_url = Normal id /\
    heap r1 !! 0 = Some d /\
    find example_url r1 = (Normal 0, r2) /\
    handleCache r2 = handleCache r1 /\
    heap r2 = heap r1 /\
    emitted r2 = emitted r1 /\
    delivered r2 = delivered r1 /\
    entropy r2 = entropy r1 /\
    timers r2 = timers r1 ++
      (if bool_decide (state d = Unavailable) then [ReannounceUnavailable id] else []).
Proof.
  apply (find_again new_DocCollection (find example_url new_DocCollection).2 example_url 0).
  vm_compute. reflexivity.
Defined.

Lemma created_id_roundtrip_witness :
  exists id : string,
    spec_parse hex byte_checksum (spec_generate hex byte_checksum example_uuid 0) = Normal id /\
    handleCache (create new_DocCollection).2 !! id = Some 0 /\
    spec_isValid hex byte_checksum (stringifyAutomergeUrl hex byte_checksum id) = true /\
    spec_parse hex byte_checksum (stringifyAutomergeUrl hex byte_checksum id) = Normal id.
Proof.
  apply (created_id_roundtrip hex byte_checksum example_uuid hex_lossless byte_checksum_fixed
           new_DocCollection (create new_DocCollection).2 0).
  vm_compute. reflexivity.
Defined.

End Examples.

(** * Further properties of the registry *)

Section Outcomes.
Context {codec : DocUrl}.

(** *** Every outcome of the three methods *)

Lemma create_cases (r : DocCollection) :
  let r0 := set_entropy (S (entropy r)) r in
  match parseAutomergeUrl (generateAutomergeUrl (entropy r)) with
  | Throw e => create r = (Throw e, r0)
  | Normal id =>
      match handleCache r !! id with
      | Some h =>
          create r =
            (Normal h, set_emitted (emitted r ++ [EmitDocument h]) (delivered r) r0)
      | None =>
          if decide (id = "")
          then create r = (Throw (Error "Invalid documentId "), r0)
          else create r =
            (Normal (length (heap r)),
             {| handleCache := <[id := length (heap r)]> (handleCache r);
                sharePolicy := sharePolicy r;
                heap := heap r ++ [construct id true];
                emitted := emitted r ++ [EmitDocument (length (heap r))];
                delivered := delivered r;
                timers := timers r;
                entropy := S (entropy r) |})
      end
  end.
Proof.
  cbv zeta.
  destruct (parseAutomergeUrl (generateAutomergeUrl (entropy r))) as [id|e] eqn:Hp.
  2:{ unfold create. unfold bind at 1, generate. unfold bind at 1, lift. by rewrite Hp. }
  assert (create r = bind (getHandle id true)
                 (fun handle => bind (emit (EmitDocument handle)) (fun _ => ret handle))
                 (set_entropy (S (entropy r)) r)) as ->.
  { unfold create. unfold bind at 1, generate. unfold bind at 1, lift. by rewrite Hp. }
  destruct (handleCache r !! id) as [h|] eqn:Hc.
  - unfold bind at 1. by rewrite (getHandle_cached _ _ _ h).
  - destruct (decide (id = "")) as [->|Hne]; unfold bind at 1.
    + by rewrite getHandle_empty.
    + by rewrite getHandle_fresh.
Qed.

Lemma find_cases (url : string) (r : DocCollection) :
  if isValidAutomergeUrl url
  then
    match parseAutomergeUrl url with
    | Throw e => find url r = (Throw e, r)
    | Normal id =>
        match handleCache r !! id with
        | Some h =>
            match heap r !! h with
            | Some d =>
                find url r =
                  (Normal h,
                   if bool_decide (state d = Unavailable)
                   then set_timers (timers r ++ [ReannounceUnavailable id]) r
                   else r)
            | None => exists e, find url r = (Throw e, r)
            end
        | None =>
            if decide (id = "")
            then find url r = (Throw (Error "Invalid documentId "), r)
            else find url r =
              (Normal (length (heap r)),
               {| handleCache := <[id := length (heap r)]> (handleCache r);
                  sharePolicy := sharePolicy r;
                  heap := heap r ++ [construct id false];
                  emitted := emitted r ++ [EmitDocument (length (heap r))];
                  delivered := delivered r;
                  timers := timers r;
                  entropy := entropy r |})
        end
    end
  else find url r = (Throw (InvalidUrlError url), r).
Proof.
  destruct (isValidAutomergeUrl url) eqn:Hv.
  2:{ unfold find. by rewrite Hv. }
  destruct (parseAutomergeUrl url) as [id|e] eqn:Hp.
  2:{ unfold find. rewrite Hv. cbn [negb]. unfold bind at 1, lift. by rewrite Hp. }
  destruct (handleCache r !! id) as [h|] eqn:Hc.
  - destruct (heap r !! h) as [d|] eqn:Hd.
    + by apply find_hit.
    + unfold find. rewrite Hv. cbn [negb]. unfold bind at 1, lift. rewrite Hp.
      unfold bind at 1, gets. rewrite Hc. unfold_monad. rewrite Hd. eauto.
  - assert (find url r = bind (getHandle id false)
               (fun handle => bind (emit (EmitDocument handle)) (fun _ => ret handle)) r) as ->.
    { unfold find. rewrite Hv. cbn [negb]. unfold bind at 1, lift. rewrite Hp.
      unfold bind at 1, gets. by rewrite Hc. }
    destruct (decide (id = "")) as [->|Hne]; unfold bind at 1.
    + by rewrite getHandle_empty.
    + by rewrite getHandle_fresh.
Qed.

Lemma delete_cases (arg : string) (r : DocCollection) :
  match (if isValidAutomergeUrl arg then parseAutomergeUrl arg else Normal arg) with
  | Throw e => delete arg r = (Throw e, r)
  | Normal id =>
      match handleCache r !! id with
      | Some h =>
          match heap r !! h with
          | Some d =>
              delete arg r =
                (Normal tt,
                 {| handleCache := base.delete id (handleCache r);
                    sharePolicy := sharePolicy r;
                    heap := alter (with_state Deleted None) h (heap r);
                    emitted := emitted r ++ [EmitOnHandle h EvDelete h; EmitDeleteDocument id];
                    delivered := delivered r ++
                      ((fun l => (l, EmitOnHandle h EvDelete h)) <$> receivers EvDelete d);
                    timers := timers r;
                    entropy := entropy r |})
          | None => True
          end
      | None =>
          if decide (id = "")
          then delete arg r = (Throw (Error "Invalid documentId "), r)
          else delete arg r =
            (Normal tt,
             {| handleCache := handleCache r;
                sharePolicy := sharePolicy r;
                heap := heap r ++ [with_state Deleted None (construct id false)];
                emitted := emitted r ++
                  [EmitOnHandle (length (heap r)) EvDelete (length (heap r));
                   EmitDeleteDocument id];
                delivered := delivered r;
                timers := timers r;
                entropy := entropy r |})
      end
  end.
Proof.
  destruct (if isValidAutomergeUrl arg then parseAutomergeUrl arg else Normal arg)
    as [id|e] eqn:Hres.
  2:{ unfold delete. unfold bind at 1. destruct (isValidAutomergeUrl arg); [|done].
      unfold lift. by rewrite Hres. }
  destruct (handleCache r !! id) as [h|] eqn:Hc.
  - destruct (heap r !! h) as [d|] eqn:Hd; [|done]. by apply delete_cached.
  - destruct (decide (id = "")) as [->|Hne].
    + rewrite (delete_resolved arg "") by done. unfold bind at 1.
      by rewrite getHandle_empty.
    + by apply delete_uncached.
Qed.

Ltac quiet es :=
  apply (effect_quiet _ _ es); repeat case_bool_decide; cbn; rewrite ?app_nil_r; done.

Lemma create_effect (r : DocCollection) : method_effect r (create r).2.
Proof.
  pose proof (create_cases r) as Hcases. cbv zeta in Hcases.
  destruct (parseAutomergeUrl _) as [id|e]; [|rewrite Hcases; quiet ([] : list Emission)].
  destruct (handleCache r !! id) as [h|] eqn:Hc;
    [rewrite Hcases; quiet ([EmitDocument h] : list Emission)|].
  destruct (decide (id = "")) as [->|Hne]; rewrite Hcases.
  - quiet ([] : list Emission).
  - by apply (effect_alloc _ _ id true).
Qed.

Lemma find_effect (url : string) (r : DocCollection) : method_effect r (find url r).2.
Proof.
  pose proof (find_cases url r) as Hcases.
  destruct (isValidAutomergeUrl url); [|rewrite Hcases; quiet ([] : list Emission)].
  destruct (parseAutomergeUrl url) as [id|e]; [|rewrite Hcases; quiet ([] : list Emission)].
  destruct (handleCache r !! id) as [h|] eqn:Hc.
  - destruct (heap r !! h) as [d|].
    + rewrite Hcases. quiet ([] : list Emission).
    + destruct Hcases as [e ->]. quiet ([] : list Emission).
  - destruct (decide (id = "")) as [->|Hne]; rewrite Hcases.
    + quiet ([] : list Emission).
    + by apply (effect_alloc _ _ id false).
Qed.

Lemma delete_effect (arg : string) (r : DocCollection) :
  registry_inv r -> method_effect r (delete arg r).2.
Proof.
  intros Hinv. pose proof (delete_cases arg r) as Hcases.
  destruct (if isValidAutomergeUrl arg then _ else _) as [id|e];
    [|rewrite Hcases; quiet ([] : list Emission)].
  destruct (handleCache r !! id) as [h|] eqn:Hc.
  - destruct (cache_sound _ Hinv _ _ Hc) as (d & Hd & _). rewrite Hd in Hcases.
    rewrite Hcases. by apply (effect_delete _ _ id h d).
  - destruct (decide (id = "")) as [->|Hne]; rewrite Hcases.
    + quiet ([] : list Emission).
    + by apply (effect_transient _ _ id).
Qed.

(** Induction along a history, with the registry invariant at hand; [ok]
    singles out the calls the property tolerates. *)
Lemma run_invariant (P : DocCollection -> Prop) (ok : Call -> bool) :
  (forall c r, ok c = true -> registry_inv r -> P r -> P (exec c r)) ->
  forall cs r, forallb ok cs = true -> registry_inv r -> P r -> P (run cs r).
Proof.
  intros Hstep cs. induction cs as [|c cs IH]; intros r Hok Hinv HP; [done|].
  cbn in Hok. apply andb_prop in Hok as [Hc Hcs].
  apply IH; [done|by apply inv_exec|by apply Hstep].
Qed.

Lemma forallb_any (cs : list Call) : forallb (fun _ => true) cs = true.
Proof. by induction cs. Qed.

Lemma tick_effect (r : DocCollection) :
  exists es, handleCache (tick r).2 = handleCache r /\ heap (tick r).2 = heap r /\
             emitted (tick r).2 = emitted r ++ es.
Proof.
  unfold tick. destruct (timers r) as [|[id] ts]; [exists []; by rewrite app_nil_r|].
  unfold run_task. unfold_monad. cbn. destruct (handleCache r !! id) as [h|]; cbn.
  - destruct (heap r !! h); cbn; eexists; split_and!; try done. by rewrite app_nil_r.
  - exists []. by rewrite app_nil_r.
Qed.

Lemma find_miss (r : DocCollection) (url id : string) :
  isValidAutomergeUrl url = true ->
  parseAutomergeUrl url = Normal id ->
  id <> "" ->
  handleCache r !! id = None ->
  find url r =
    (Normal (length (heap r)),
     {| handleCache := <[id := length (heap r)]> (handleCache r);
        sharePolicy := sharePolicy r;
        heap := heap r ++ [construct id false];
        emitted := emitted r ++ [EmitDocument (length (heap r))];
        delivered := delivered r;
        timers := timers r;
        entropy := entropy r |}).
Proof.
  intros Hv Hp Hne Hc. pose proof (find_cases url r) as Hcases.
  rewrite Hv, Hp, Hc in Hcases. by destruct (decide (id = "")).
Qed.

(** *** The empty identifier *)

Lemma nonempty_keys_step (c : Call) (r : DocCollection) :
  registry_inv r -> nonempty_keys r -> nonempty_keys (exec c r).
Proof.
  unfold nonempty_keys. intros Hinv Hne.
  assert (forall r', method_effect r r' -> handleCache r' !! "" = None) as Heff.
  { intros r' [es -> _ _|id b _ Hid -> _ _|id h d _ _ -> _ _|id _ _ -> _ _]; try done.
    - by rewrite lookup_insert_ne.
    - rewrite lookup_delete. by case_decide. }
  destruct c as [|url|arg|h ev l|h s' d|]; cbn [exec]; try done.
  - apply Heff, create_effect.
  - apply Heff, find_effect.
  - by apply Heff, delete_effect.
  - by destruct (tick_effect r) as (es & -> & _).
Qed.

(** X4: the empty string never becomes a key of the cache, so at any point
    of a history [delete("")] throws "Invalid documentId " and changes
    nothing (the empty string not being a valid url). *)
Theorem delete_empty_id (cs : list Call) :
  isValidAutomergeUrl "" = false ->
  handleCache (run cs new_DocCollection) !! "" = None /\
  delete "" (run cs new_DocCollection) =
    (Throw (Error "Invalid documentId "), run cs new_DocCollection).
Proof.
  intros Hv.
  assert (nonempty_keys (run cs new_DocCollection)) as Hne.
  { apply (run_invariant nonempty_keys (fun _ => true));
      [intros c r _; apply nonempty_keys_step|apply forallb_any|apply inv_new|done]. }
  split; [done|]. pose proof (delete_cases "" (run cs new_DocCollection)) as Hcases.
  rewrite Hv, Hne in Hcases. by destruct (decide ("" = "")).
Qed.

(** *** How the methods compose *)

(** X5: when the generated identifier is already cached, [create] constructs
    nothing: it returns the cached handle as it is, whatever its state, and
    emits [document] for it once more. *)
Theorem create_collision (r : DocCollection) (id : string) (h : nat) :
  parseAutomergeUrl (generateAutomergeUrl (entropy r)) = Normal id ->
  handleCache r !! id = Some h ->
  create r =
    (Normal h,
     {| handleCache := handleCache r;
        sharePolicy := sharePolicy r;
        heap := heap r;
        emitted := emitted r ++ [EmitDocument h];
        delivered := delivered r;
        timers := timers r;
        entropy := S (entropy r) |}).
Proof.
  intros Hp Hc. pose proof (create_cases r) as Hcases. cbv zeta in Hcases.
  by rewrite Hp, Hc in Hcases.
Qed.

(** X6: [find] with a url of the identifier [create] has just used returns
    the handle [create] returned, and neither constructs nor announces
    anything. *)
Theorem find_after_create (r r1 : DocCollection) (h : nat) (url id : string) :
  registry_inv r ->
  create r = (Normal h, r1) ->
  parseAutomergeUrl (generateAutomergeUrl (entropy r)) = Normal id ->
  isValidAutomergeUrl url = true ->
  parseAutomergeUrl url = Normal id ->
  exists r2,
    find url r1 = (Normal h, r2) /\
    handleCache r2 = handleCache r1 /\ heap r2 = heap r1 /\ emitted r2 = emitted r1.
Proof.
  intros Hinv Hcreate Hgen Hv Hp.
  pose proof (create_cases r) as Hcases. cbv zeta in Hcases. rewrite Hgen in Hcases.
  assert (exists d, handleCache r1 !! id = Some h /\ heap r1 !! h = Some d) as (d & Hc1 & Hd1).
  { destruct (handleCache r !! id) as [h0|] eqn:Hc.
    - rewrite Hcases in Hcreate. injection Hcreate as <- <-.
      destruct (cache_sound _ Hinv _ _ Hc) as (d & Hd & _). by exists d.
    - destruct (decide (id = "")); [congruence|].
      rewrite Hcases in Hcreate. injection Hcreate as <- <-.
      exists (construct id true). cbn. rewrite lookup_insert_eq.
      by rewrite lookup_app_r, Nat.sub_diag. }
  eexists. split; [by apply (find_hit r1 url id h d)|]. by case_bool_decide.
Qed.

(** X7: after [delete], [find] for the same identifier does not give the
    deleted handle back: it constructs a handle at a new address, in
    [loading], caches it and announces it. *)
Theorem find_after_delete (r : DocCollection) (arg id url : string) :
  registry_inv r ->
  (if isValidAutomergeUrl arg then parseAutomergeUrl arg else Normal arg) = Normal id ->
  id <> "" ->
  isValidAutomergeUrl url = true ->
  parseAutomergeUrl url = Normal id ->
  let r1 := (delete arg r).2 in
  let h' := length (heap r1) in
  (delete arg r).1 = Normal tt /\
  (forall h, handleCache r !! id = Some h -> h < h') /\
  exists r2,
    find url r1 = (Normal h', r2) /\
    heap r2 = heap r1 ++ [construct id false] /\
    handleCache r2 !! id = Some h' /\
    emitted r2 = emitted r1 ++ [EmitDocument h'].
Proof.
  intros Hinv Hres Hne Hv Hp. cbv zeta.
  pose proof (delete_cases arg r) as Hcases. rewrite Hres in Hcases.
  assert ((delete arg r).1 = Normal tt /\ handleCache (delete arg r).2 !! id = None /\
          forall h, handleCache r !! id = Some h -> h < length (heap (delete arg r).2))
    as (Hok & Hc1 & Hlt).
  { destruct (handleCache r !! id) as [h|] eqn:Hc.
    - destruct (cache_sound _ Hinv _ _ Hc) as (d & Hd & _). rewrite Hd in Hcases.
      rewrite Hcases. cbn. split_and!; [done|apply lookup_delete_eq|].
      intros h0 [= <-]. rewrite length_alter. by eapply lookup_lt_Some.
    - destruct (decide (id = "")); [done|]. rewrite Hcases. by cbn. }
  split_and!; [done..|]. eexists. split; [by apply find_miss|]. cbn.
  split_and!; [done|apply lookup_insert_eq|done].
Qed.

(** X8: [create] followed by [delete] of the created identifier leaves the
    cache as it was before [create]; the handle stays in the heap, deleted,
    and three events have been emitted. *)
Theorem create_then_delete (r : DocCollection) (id arg : string) :
  parseAutomergeUrl (generateAutomergeUrl (entropy r)) = Normal id ->
  id <> "" ->
  handleCache r !! id = None ->
  (if isValidAutomergeUrl arg then parseAutomergeUrl arg else Normal arg) = Normal id ->
  let h := length (heap r) in
  let r2 := (delete arg (create r).2).2 in
  (create r).1 = Normal h /\
  (delete arg (create r).2).1 = Normal tt /\
  handleCache r2 = handleCache r /\
  heap r2 = heap r ++ [with_state Deleted None (construct id true)] /\
  emitted r2 = emitted r ++
    [EmitDocument h; EmitOnHandle h EvDelete h; EmitDeleteDocument id].
Proof.
  intros Hgen Hne Hc Hres. cbv zeta.
  pose proof (create_cases r) as Hcases. cbv zeta in Hcases.
  rewrite Hgen, Hc in Hcases. destruct (decide (id = "")); [done|].
  rewrite Hcases. cbn [fst snd].
  rewrite (delete_cached arg id _ (length (heap r)) (construct id true)); cbn;
    [|done|apply lookup_insert_eq|by rewrite lookup_app_r, Nat.sub_diag].
  split_and!; [done..| | |by rewrite <- app_assoc].
  - by rewrite delete_insert_eq, delete_id.
  - rewrite alter_app_r_alt, Nat.sub_diag by done. done.
Qed.

(** *** The deferred re-announcement and [delete] *)

(** X9: a re-announcement scheduled by [find] reads the cache when it runs.
    If the document has been deleted in between, the callback finds no
    handle: it throws a [TypeError] and no [unavailable] event is emitted. *)
Theorem reannounce_after_delete (r : DocCollection) (url id : string) (h : nat)
    (d : DocHandle) :
  timers r = [] ->
  isValidAutomergeUrl url = true ->
  parseAutomergeUrl url = Normal id ->
  handleCache r !! id = Some h ->
  heap r !! h = Some d ->
  state d = Unavailable ->
  let r2 := (delete url (find url r).2).2 in
  timers r2 = [ReannounceUnavailable id] /\
  emitted r2 = emitted r ++ [EmitOnHandle h EvDelete h; EmitDeleteDocument id] /\
  tick r2 =
    (Throw (TypeError "Cannot read properties of undefined (reading 'emit')"),
     set_timers [] r2).
Proof.
  intros Ht Hv Hp Hc Hd Hs. cbv zeta.
  rewrite (find_hit r url id h d), bool_decide_eq_true_2 by done. cbn [snd].
  rewrite (delete_cached url id _ h d); [|by rewrite Hv|done..]. cbn [snd].
  rewrite Ht. split_and!; [done..|].
  unfold tick. cbn. unfold run_task. unfold_monad. cbn. by rewrite lookup_delete_eq.
Qed.

Lemma lookup_after_alter {A} (f : A -> A) (h : nat) (l : list A) (x : A) :
  (alter f h l ++ [x]) !! length l = Some x.
Proof. rewrite lookup_app_r; rewrite length_alter; [by rewrite Nat.sub_diag|done]. Qed.

(** X10: if the document is deleted and looked up again before the
    re-announcement runs, the callback emits [unavailable] on the handle
    cached by then, the new one, although that handle is [loading]. *)
Theorem reannounce_on_replacement (r : DocCollection) (url id : string) (h : nat)
    (d : DocHandle) :
  timers r = [] ->
  isValidAutomergeUrl url = true ->
  parseAutomergeUrl url = Normal id ->
  id <> "" ->
  handleCache r !! id = Some h ->
  heap r !! h = Some d ->
  state d = Unavailable ->
  let h' := length (heap r) in
  let r3 := (find url (delete url (find url r).2).2).2 in
  (find url (delete url (find url r).2).2).1 = Normal h' /\
  h' <> h /\
  heap r3 !! h' = Some (construct id false) /\
  exists r4,
    tick r3 = (Normal tt, r4) /\
    emitted r4 = emitted r3 ++ [EmitOnHandle h' EvUnavailable h'] /\
    heap r4 = heap r3.
Proof.
  intros Ht Hv Hp Hne Hc Hd Hs. cbv zeta.
  rewrite (find_hit r url id h d), bool_decide_eq_true_2 by done. cbn [snd].
  rewrite (delete_cached url id _ h d); [|by rewrite Hv|done..]. cbn [snd].
  rewrite find_miss with (id := id); [|done..|cbn; apply lookup_delete_eq].
  cbn. rewrite length_alter, Ht.
  assert (h < length (heap r)) as Hlt by by eapply lookup_lt_Some.
  split_and!; [done|lia|apply lookup_after_alter|].
  eexists. unfold tick. cbn. unfold run_task. unfold_monad. cbn.
  rewrite lookup_insert_eq. cbn. rewrite lookup_after_alter. cbn. done.
Qed.

(** *** What histories keep *)

Lemma retired_step (c : Call) (r : DocCollection) (h : nat) (id0 : string) :
  registry_inv r ->
  ((exists d, heap r !! h = Some d /\ documentId d = id0 /\ state d = Deleted) /\
   forall id, handleCache r !! id <> Some h) ->
  (exists d, heap (exec c r) !! h = Some d /\ documentId d = id0 /\ state d = Deleted) /\
  forall id, handleCache (exec c r) !! id <> Some h.
Proof.
  intros Hinv [(d & Hd & Hid & Hdel) Hnc].
  assert (h < length (heap r)) as Hlt by by eapply lookup_lt_Some.
  assert (forall r', method_effect r r' ->
    (exists d, heap r' !! h = Some d /\ documentId d = id0 /\ state d = Deleted) /\
    forall id, handleCache r' !! id <> Some h) as Heff.
  { intros r' [es -> -> _|id b _ _ -> -> _|id h0 d0 Hc0 _ -> -> _|id _ _ -> -> _].
    - eauto.
    - split; [exists d; split; [by apply lookup_app_l_Some|done]|].
      intros id'. rewrite lookup_insert. case_decide; [|done]. intros [= Heq]. lia.
    - split.
      + exists d. rewrite list_lookup_alter_ne; [done|]. intros ->. by eapply Hnc.
      + intros id'. rewrite lookup_delete. by case_decide.
    - split; [exists d; split; [by apply lookup_app_l_Some|done]|done]. }
  destruct c as [|url|arg|h0 ev l|h0 s' v|]; cbn [exec].
  - apply Heff, create_effect.
  - apply Heff, find_effect.
  - by apply Heff, delete_effect.
  - cbn. split; [|done]. destruct (decide (h0 = h)) as [->|Hne].
    + exists (add_listener ev l d). by rewrite list_lookup_alter_eq, Hd.
    + exists d. by rewrite list_lookup_alter_ne.
  - cbn. split; [|done]. destruct (decide (h0 = h)) as [->|Hne].
    + exists d. rewrite list_lookup_alter_eq, Hd. cbn. by rewrite Hdel.
    + exists d. by rewrite list_lookup_alter_ne.
  - destruct (tick_effect r) as (es & -> & -> & _). eauto.
Qed.

(** X11: a handle the registry has deleted and dropped from its cache is
    retired for good.  Whatever calls follow, the object stays in the heap
    with its identifier and in the deleted state, it is never put back into
    the cache, and neither [find] nor [create] ever returns it again. *)
Theorem deleted_handle_retired (cs : list Call) (r : DocCollection) (h : nat)
    (d : DocHandle) (url : string) :
  registry_inv r ->
  heap r !! h = Some d ->
  state d = Deleted ->
  (forall id, handleCache r !! id <> Some h) ->
  let r' := run cs r in
  (exists d', heap r' !! h = Some d' /\ documentId d' = documentId d /\ state d' = Deleted) /\
  (forall id, handleCache r' !! id <> Some h) /\
  (find url r').1 <> Normal h /\
  (create r').1 <> Normal h.
Proof.
  intros Hinv Hd Hdel Hnc. cbv zeta.
  assert ((exists d', heap (run cs r) !! h = Some d' /\ documentId d' = documentId d /\
                      state d' = Deleted) /\
          forall id, handleCache (run cs r) !! id <> Some h) as [Hobj Hnc'].
  { apply (run_invariant
             (fun r => (exists d', heap r !! h = Some d' /\ documentId d' = documentId d /\
                                   state d' = Deleted) /\
                       forall id, handleCache r !! id <> Some h) (fun _ => true));
      [intros c r0 _; apply retired_step|apply forallb_any|done|eauto]. }
  split_and!; [done..| |].
  - destruct Hobj as (d' & Hd' & _). apply lookup_lt_Some in Hd'.
    pose proof (find_cases url (run cs r)) as Hcases.
    destruct (isValidAutomergeUrl url); [|by rewrite Hcases].
    destruct (parseAutomergeUrl url) as [id|e]; [|by rewrite Hcases].
    destruct (handleCache (run cs r) !! id) as [h0|] eqn:Hc.
    + destruct (heap (run cs r) !! h0) as [d0|].
      * rewrite Hcases. cbn. intros [= ->]. by eapply Hnc'.
      * by destruct Hcases as [e ->].
    + destruct (decide (id = "")); rewrite Hcases; [done|]. cbn. intros [= Heq]. lia.
  - destruct Hobj as (d' & Hd' & _). apply lookup_lt_Some in Hd'.
    pose proof (create_cases (run cs r)) as Hcases. cbv zeta in Hcases.
    destruct (parseAutomergeUrl _) as [id|e]; [|by rewrite Hcases].
    destruct (handleCache (run cs r) !! id) as [h0|] eqn:Hc.
    + rewrite Hcases. cbn. intros [= ->]. by eapply Hnc'.
    + destruct (decide (id = "")); rewrite Hcases; [done|]. cbn. intros [= Heq]. lia.
Qed.

Lemma announced_step (c : Call) (r : DocCollection) :
  registry_inv r -> announced r -> announced (exec c r).
Proof.
  unfold announced. intros Hinv Hann.
  assert (forall r', method_effect r r' ->
            forall id h, handleCache r' !! id = Some h -> EmitDocument h ∈ emitted r')
    as Heff.
  { intros r' [es -> _ ->|id b _ _ -> _ ->|id h0 d0 _ _ -> _ ->|id _ _ -> _ ->] id' h';
      rewrite elem_of_app.
    - eauto.
    - rewrite lookup_insert. case_decide; [|by eauto].
      intros [= <-]. right. by apply list_elem_of_singleton.
    - rewrite lookup_delete. case_decide; [done|by eauto].
    - eauto. }
  destruct c as [|url|arg|h0 ev l|h0 s' v|]; cbn [exec]; try done.
  - apply Heff, create_effect.
  - apply Heff, find_effect.
  - by apply Heff, delete_effect.
  - destruct (tick_effect r) as (es & -> & _ & ->). intros id h Hc.
    rewrite elem_of_app. eauto.
Qed.

(** X12: no handle gets into the cache unannounced: at any point of a
    history, a [document] event has been emitted for every cached handle. *)
Theorem cached_announced (cs : list Call) (id : string) (h : nat) :
  handleCache (run cs new_DocCollection) !! id = Some h ->
  EmitDocument h ∈ emitted (run cs new_DocCollection).
Proof.
  revert id h. change (announced (run cs new_DocCollection)).
  apply (run_invariant announced (fun _ => true));
    [intros c r _; apply announced_step|apply forallb_any|apply inv_new|].
  intros id h. cbn. by rewrite lookup_empty.
Qed.

Lemma cached_live_step (c : Call) (r : DocCollection) :
  direct_delete c = false ->
  registry_inv r -> cached_live r -> cached_live (exec c r).
Proof.
  unfold cached_live. intros Hc Hinv Hlive.
  assert (forall r', method_effect r r' ->
            forall id h d, handleCache r' !! id = Some h -> heap r' !! h = Some d ->
                           state d <> Deleted) as Heff.
  { intros r' [es -> -> _|id b Hnone _ -> -> _|id h0 d0 Hc0 _ -> -> _|id _ _ -> -> _] id' h' d'.
    - eauto.
    - rewrite lookup_insert. case_decide.
      + intros [= <-]. rewrite lookup_app_r, Nat.sub_diag by done.
        intros [= <-]. by destruct b.
      + intros Hc'. destruct (cache_sound _ Hinv _ _ Hc') as (x & Hx & _).
        rewrite (lookup_app_l_Some _ _ _ _ Hx). intros [= <-]. eauto.
    - rewrite lookup_delete. case_decide as Hid; [done|]. intros Hc'.
      rewrite list_lookup_alter_ne; [by eauto|].
      intros <-. apply Hid. by eapply cache_injective.
    - intros Hc'. destruct (cache_sound _ Hinv _ _ Hc') as (x & Hx & _).
      rewrite (lookup_app_l_Some _ _ _ _ Hx). intros [= <-]. eauto. }
  destruct c as [|url|arg|h0 ev l|h0 s' v|]; cbn [exec].
  - apply Heff, create_effect.
  - apply Heff, find_effect.
  - by apply Heff, delete_effect.
  - cbn. intros id h d Hc'. destruct (decide (h0 = h)) as [->|Hne].
    + rewrite list_lookup_alter_eq. destruct (heap r !! h) as [x|] eqn:Hx; [|done].
      intros [= <-]. cbn. eauto.
    + rewrite list_lookup_alter_ne by done. eauto.
  - cbn. intros id h d Hc'. destruct (decide (h0 = h)) as [->|Hne].
    + rewrite list_lookup_alter_eq. destruct (heap r !! h) as [x|] eqn:Hx; [|done].
      intros [= <-]. destruct (handle_step (state x) s'); [|by eauto].
      cbn. by destruct s'.
    + rewrite list_lookup_alter_ne by done. eauto.
  - destruct (tick_effect r) as (es & -> & -> & _). eauto.
Qed.

(** X13: as long as no handle is deleted behind the registry's back, the
    map [handles] returns holds live handles only: each is an object of the
    heap, carries the identifier it is listed under, and is not deleted. *)
Theorem handles_live (cs : list Call) (m : gmap string nat) (r' : DocCollection)
    (id : string) (h : nat) :
  forallb (fun c => negb (direct_delete c)) cs = true ->
  handles (run cs new_DocCollection) = (Normal m, r') ->
  m !! id = Some h ->
  exists d, heap r' !! h = Some d /\ documentId d = id /\ state d <> Deleted.
Proof.
  intros Hcs [= <- <-] Hm.
  destruct (cache_sound _ (inv_run cs _ inv_new) _ _ Hm) as (d & Hd & Hid).
  exists d. split_and!; [done..|].
  revert id h d Hm Hd Hid. intros id h d Hm Hd _. revert id h d Hm Hd.
  change (cached_live (run cs new_DocCollection)).
  apply (run_invariant cached_live (fun c => negb (direct_delete c)));
    [|done|apply inv_new|].
  - intros c r Hc. apply cached_live_step. by destruct (direct_delete c).
  - intros id h d. cbn. by rewrite lookup_empty.
Qed.

(** *** What the methods leave alone *)

(** X14: [delete] touches one identifier only: the cache entry of every
    other identifier and the handle object it points to are as before. *)
Theorem delete_frame (arg id id' : string) (r : DocCollection) (h' : nat) :
  registry_inv r ->
  (if isValidAutomergeUrl arg then parseAutomergeUrl arg else Normal arg) = Normal id ->
  id' <> id ->
  handleCache r !! id' = Some h' ->
  handleCache (delete arg r).2 !! id' = Some h' /\
  heap (delete arg r).2 !! h' = heap r !! h'.
Proof.
  intros Hinv Hres Hne Hc'. pose proof (delete_cases arg r) as Hcases.
  rewrite Hres in Hcases.
  destruct (cache_sound _ Hinv _ _ Hc') as (d' & Hd' & _).
  destruct (handleCache r !! id) as [h|] eqn:Hc.
  - destruct (cache_sound _ Hinv _ _ Hc) as (d & Hd & _). rewrite Hd in Hcases.
    rewrite Hcases. cbn. rewrite lookup_delete_ne by done. split; [done|].
    apply list_lookup_alter_ne. intros ->. apply Hne. by eapply cache_injective.
  - destruct (decide (id = "")); rewrite Hcases; cbn; [done|].
    split; [done|]. rewrite Hd'. by apply lookup_app_l_Some.
Qed.

(** X15: [find] and [create] only ever add: a handle object of the heap and
    a cache entry that exist before the call are the same after it. *)
Theorem lookups_only_add (url id : string) (r : DocCollection) (h : nat) (d : DocHandle) :
  handleCache r !! id = Some h ->
  heap r !! h = Some d ->
  (handleCache (find url r).2 !! id = Some h /\ heap (find url r).2 !! h = Some d) /\
  (handleCache (create r).2 !! id = Some h /\ heap (create r).2 !! h = Some d).
Proof.
  intros Hc Hd. split.
  - pose proof (find_cases url r) as Hcases.
    destruct (isValidAutomergeUrl url); [|by rewrite Hcases].
    destruct (parseAutomergeUrl url) as [id0|e]; [|by rewrite Hcases].
    destruct (handleCache r !! id0) as [h0|] eqn:Hc0.
    + destruct (heap r !! h0) as [d0|].
      * rewrite Hcases. by case_bool_decide.
      * by destruct Hcases as [e ->].
    + destruct (decide (id0 = "")); rewrite Hcases; [done|]. cbn.
      rewrite lookup_insert_ne by congruence. split; [done|]. by apply lookup_app_l_Some.
  - pose proof (create_cases r) as Hcases. cbv zeta in Hcases.
    destruct (parseAutomergeUrl _) as [id0|e]; [|by rewrite Hcases].
    destruct (handleCache r !! id0) as [h0|] eqn:Hc0; [by rewrite Hcases|].
    destruct (decide (id0 = "")); rewrite Hcases; [done|]. cbn.
    rewrite lookup_insert_ne by congruence. split; [done|]. by apply lookup_app_l_Some.
Qed.

(** *** One live handle per identifier *)

Lemma delete_forgets (arg id : string) (r : DocCollection) :
  registry_inv r ->
  (if isValidAutomergeUrl arg then parseAutomergeUrl arg else Normal arg) = Normal id ->
  id <> "" ->
  (delete arg r).1 = Normal tt /\
  handleCache (delete arg r).2 !! id = None /\
  forall h, handleCache r !! id = Some h ->
            (state <$> heap (delete arg r).2 !! h) = Some Deleted /\
            h < length (heap (delete arg r).2).
Proof.
  intros Hinv Hres Hne. pose proof (delete_cases arg r) as Hcases.
  rewrite Hres in Hcases. destruct (handleCache r !! id) as [h|] eqn:Hc.
  - destruct (cache_sound _ Hinv _ _ Hc) as (d & Hd & _). rewrite Hd in Hcases.
    rewrite Hcases. cbn. split_and!; [done|apply lookup_delete_eq|].
    intros h0 [= <-]. rewrite list_lookup_alter_eq, Hd, length_alter.
    split; [done|]. by eapply lookup_lt_Some.
  - destruct (decide (id = "")); [done|]. rewrite Hcases. by cbn.
Qed.

(** C1 (amended): along every history of a new registry the cache maps an
    identifier to a handle object that carries this identifier, and every
    handle object that is not deleted is the one cached for its identifier.
    [delete] leaves the handle it found deleted and removes the cache entry,
    and a later [find] for the identifier constructs and caches a handle at a
    new address. *)
Theorem one_live_handle_per_id (cs : list Call) :
  let r := run cs new_DocCollection in
  registry_inv r /\
  forall arg id url : string,
    (if isValidAutomergeUrl arg then parseAutomergeUrl arg else Normal arg) = Normal id ->
    id <> "" ->
    isValidAutomergeUrl url = true ->
    parseAutomergeUrl url = Normal id ->
    let r1 := (delete arg r).2 in
    (delete arg r).1 = Normal tt /\
    handleCache r1 !! id = None /\
    (forall h, handleCache r !! id = Some h ->
               (state <$> heap r1 !! h) = Some Deleted /\ h < length (heap r1)) /\
    exists r2,
      find url r1 = (Normal (length (heap r1)), r2) /\
      heap r2 = heap r1 ++ [construct id false] /\
      handleCache r2 !! id = Some (length (heap r1)).
Proof.
  cbv zeta. pose proof (inv_run cs _ inv_new) as Hinv. split; [done|].
  intros arg id url Hres Hne Hv Hp.
  destruct (delete_forgets arg id _ Hinv Hres Hne) as (Hok & Hgone & Hold).
  split_and!; [done..|]. eexists. split; [by apply find_miss|]. cbn.
  split; [done|apply lookup_insert_eq].
Qed.

End Outcomes.

(** ** Further examples *)

Section FurtherExamples.
#[local] Existing Instance ExampleDocUrl.

Lemma delete_empty_id_witness :
  let r := run [CallCreate; CallFind example_url] new_DocCollection in
  handleCache r !! "" = None /\
  delete "" r = (Throw (Error "Invalid documentId "), r).
Proof.
  apply (delete_empty_id [CallCreate; CallFind example_url]). vm_compute. reflexivity.
Defined.

Lemma create_collision_witness :
  create (find example_url new_DocCollection).2 =
    (Normal 0,
     {| handleCache := {[ example_id := 0 ]};
        sharePolicy := default_sharePolicy;
        heap := [construct example_id false];
        emitted := [EmitDocument 0; EmitDocument 0];
        delivered := [];
        timers := [];
        entropy := 1 |}).
Proof.
  etrans;
    [apply (create_collision (find example_url new_DocCollection).2 example_id 0);
     vm_compute; reflexivity|].
  vm_compute. reflexivity.
Defined.

Lemma find_after_create_witness :
  exists r2,
    find example_url (create new_DocCollection).2 = (Normal 0, r2) /\
    handleCache r2 = handleCache (create new_DocCollection).2 /\
    heap r2 = heap (create new_DocCollection).2 /\
    emitted r2 = emitted (create new_DocCollection).2.
Proof.
  apply (find_after_create new_DocCollection _ 0 example_url example_id);
    [apply inv_new|vm_compute; reflexivity..].
Defined.

Lemma find_after_delete_witness :
  let r := run [CallCreate] new_DocCollection in
  let r1 := (delete example_id r).2 in
  (delete example_id r).1 = Normal tt /\
  (forall h, handleCache r !! example_id = Some h -> h < length (heap r1)) /\
  exists r2,
    find example_url r1 = (Normal (length (heap r1)), r2) /\
    heap r2 = heap r1 ++ [construct example_id false] /\
    handleCache r2 !! example_id = Some (length (heap r1)) /\
    emitted r2 = emitted r1 ++ [EmitDocument (length (heap r1))].
Proof.
  apply (find_after_delete (run [CallCreate] new_DocCollection)
           example_id example_id example_url);
    [apply inv_run, inv_new|vm_compute; reflexivity|discriminate
    |vm_compute; reflexivity|vm_compute; reflexivity].
Defined.

Lemma create_then_delete_witness :
  let r2 := (delete example_url (create new_DocCollection).2).2 in
  (create new_DocCollection).1 = Normal 0 /\
  (delete example_url (create new_DocCollection).2).1 = Normal tt /\
  handleCache r2 = ∅ /\
  heap r2 = [with_state Deleted None (construct example_id true)] /\
  emitted r2 = [EmitDocument 0; EmitOnHandle 0 EvDelete 0; EmitDeleteDocument example_id].
Proof.
  apply (create_then_delete new_DocCollection example_id example_url);
    [vm_compute; reflexivity|discriminate|reflexivity|vm_compute; reflexivity].
Defined.

Lemma reannounce_after_delete_witness :
  let r := run [CallFind example_url; CallTransition 0 Unavailable None] new_DocCollection in
  let r2 := (delete example_url (find example_url r).2).2 in
  timers r2 = [ReannounceUnavailable example_id] /\
  emitted r2 = emitted r ++ [EmitOnHandle 0 EvDelete 0; EmitDeleteDocument example_id] /\
  tick r2 =
    (Throw (TypeError "Cannot read properties of undefined (reading 'emit')"),
     set_timers [] r2).
Proof.
  apply (reannounce_after_delete
           (run [CallFind example_url; CallTransition 0 Unavailable None] new_DocCollection)
           example_url example_id 0
           (with_state Unavailable None (construct example_id false)));
    vm_compute; reflexivity.
Defined.

Lemma reannounce_on_replacement_witness :
  let r := run [CallFind example_url; CallTransition 0 Unavailable None] new_DocCollection in
  let h' := length (heap r) in
  let r3 := (find example_url (delete example_url (find example_url r).2).2).2 in
  (find example_url (delete example_url (find example_url r).2).2).1 = Normal h' /\
  h' <> 0 /\
  heap r3 !! h' = Some (construct example_id false) /\
  exists r4,
    tick r3 = (Normal tt, r4) /\
    emitted r4 = emitted r3 ++ [EmitOnHandle h' EvUnavailable h'] /\
    heap r4 = heap r3.
Proof.
  apply (reannounce_on_replacement
           (run [CallFind example_url; CallTransition 0 Unavailable None] new_DocCollection)
           example_url example_id 0
           (with_state Unavailable None (construct example_id false)));
    try (vm_compute; reflexivity). discriminate.
Defined.

Lemma one_live_handle_per_id_witness :
  let r := run [CallCreate] new_DocCollection in
  let r1 := (delete example_id r).2 in
  (delete example_id r).1 = Normal tt /\
  handleCache r1 !! example_id = None /\
  (forall h, handleCache r !! example_id = Some h ->
             (state <$> heap r1 !! h) = Some Deleted /\ h < length (heap r1)) /\
  exists r2,
    find example_url r1 = (Normal (length (heap r1)), r2) /\
    heap r2 = heap r1 ++ [construct example_id false] /\
    handleCache r2 !! example_id = Some (length (heap r1)).
Proof.
  apply (proj2 (one_live_handle_per_id [CallCreate]) example_id example_id example_url);
    [vm_compute; reflexivity|discriminate|vm_compute; reflexivity|vm_compute; reflexivity].
Defined.

(** C4, as stated, fails: nothing in [create] checks that the identifier it
    draws is fresh.  After [find] has cached the identifier of the first
    draw, [create] draws it, constructs nothing and returns the handle of
    [find], which is [loading] and was built with [isNew = false]. *)
Lemma create_returns_cached_loading_handle :
  let r := run [CallFind example_url] new_DocCollection in
  parseAutomergeUrl (generateAutomergeUrl (entropy r)) = Normal example_id /\
  handleCache r !! example_id = Some 0 /\
  (create r).1 = Normal 0 /\
  heap (create r).2 = [construct example_id false] /\
  (state <$> heap (create r).2 !! 0) = Some Loading /\
  (isNew <$> heap (create r).2 !! 0) = Some false /\
  emitted (create r).2 = [EmitDocument 0; EmitDocument 0].
Proof. cbv zeta. split_and!; vm_compute; reflexivity. Qed.

Lemma deleted_handle_retired_witness :
  let r := run [CallCreate; CallDelete example_id] new_DocCollection in
  let r' := run [CallFind example_url; CallTransition 0 Ready None; CallCreate] r in
  (exists d', heap r' !! 0 = Some d' /\ documentId d' = example_id /\ state d' = Deleted) /\
  (forall id, handleCache r' !! id <> Some 0) /\
  (find example_url r').1 <> Normal 0 /\
  (create r').1 <> Normal 0.
Proof.
  apply (deleted_handle_retired
           [CallFind example_url; CallTransition 0 Ready None; CallCreate]
           (run [CallCreate; CallDelete example_id] new_DocCollection) 0
           (with_state Deleted None (construct example_id true)) example_url);
    [apply inv_run, inv_new|vm_compute; reflexivity|reflexivity|].
  intros id. vm_compute. discriminate.
Defined.

Lemma cached_announced_witness :
  EmitDocument 0 ∈ emitted (run [CallFind example_url] new_DocCollection).
Proof.
  apply (cached_announced [CallFind example_url] example_id 0). vm_compute. reflexivity.
Defined.

Lemma handles_live_witness :
  exists d,
    heap (run [CallCreate] new_DocCollection) !! 0 = Some d /\
    documentId d = example_id /\ state d <> Deleted.
Proof.
  apply (handles_live [CallCreate] (handleCache (run [CallCreate] new_DocCollection))
           (run [CallCreate] new_DocCollection) example_id 0);
    [reflexivity|reflexivity|vm_compute; reflexivity].
Defined.

Lemma delete_frame_witness :
  let r := run [CallCreate; CallCreate] new_DocCollection in
  handleCache (delete example_id r).2 !! "BBBBBBBBBBBBBBBB" = Some 1 /\
  heap (delete example_id r).2 !! 1 = heap r !! 1.
Proof.
  apply (delete_frame example_id example_id "BBBBBBBBBBBBBBBB"
           (run [CallCreate; CallCreate] new_DocCollection) 1);
    [apply inv_run, inv_new|vm_compute; reflexivity|discriminate|vm_compute; reflexivity].
Defined.

Lemma lookups_only_add_witness :
  let r := run [CallCreate] new_DocCollection in
  (handleCache (find "automerge:4242424242424242424242424242424220" r).2 !! example_id = Some 0 /\
   heap (find "automerge:4242424242424242424242424242424220" r).2 !! 0
     = Some (construct example_id true)) /\
  (handleCache (create r).2 !! example_id = Some 0 /\
   heap (create r).2 !! 0 = Some (construct example_id true)).
Proof.
  apply (lookups_only_add "automerge:4242424242424242424242424242424220" example_id
           (run [CallCreate] new_DocCollection) 0 (construct example_id true));
    vm_compute; reflexivity.
Defined.

End FurtherExamples.
